(** * pot-api: the job queue, its two store backends, the job runner and the
    webhook dispatcher, embedded from [queue.ts], [jobs.ts] and [index.ts].

    Conventions of the embedding.
    - A timestamp is the number of milliseconds since the epoch, a [Z]:
      [new Date().toISOString()] and [new Date(s).getTime()] are inverse to
      each other on the strings the program produces, so both are the
      identity here.  Every [new Date()] / [Date.now()] of the source is an
      explicit clock reading passed to the function that performs it.
    - [randomUUID()] is an explicit argument as well.
    - A rejected promise / thrown exception is the [Threw] outcome. *)

From Stdlib Require Import ZArith String Lia.
From stdpp Require Import base option list gmap strings.

Local Open Scope string_scope.

(** ** Job records ([jobs.ts]) *)

Inductive JobStatus := pending | running | done | error.

Inductive Tier := basic | pro.

(** The verification engine's result is opaque to the queue; it is kept as
    the text of its JSON form. *)
Definition Payload := string.

Record JobInput := mkJobInput {
  output : string;
  question : string;
  tier : Tier;
  callbackUrl : option string
}.

Record Job := mkJob {
  job_id : string;
  job_status : JobStatus;
  job_createdAt : Z;
  job_updatedAt : Z;
  job_input : JobInput;
  job_result : option Payload;
  job_error : option string
}.

(** [Partial<Job>]: every field may be absent.  [None] is a key that the
    patch does not carry. *)
Record JobPatch := mkPatch {
  p_id : option string;
  p_status : option JobStatus;
  p_createdAt : option Z;
  p_updatedAt : option Z;
  p_input : option JobInput;
  p_result : option Payload;
  p_error : option string
}.

Definition empty_patch : JobPatch := mkPatch None None None None None None None.

#[global] Instance JobStatus_eq_dec : EqDecision JobStatus.
Proof. solve_decision. Defined.

#[global] Instance Tier_eq_dec : EqDecision Tier.
Proof. solve_decision. Defined.

#[global] Instance JobInput_eq_dec : EqDecision JobInput.
Proof. solve_decision. Defined.

#[global] Instance Job_eq_dec : EqDecision Job.
Proof. solve_decision. Defined.

(** The job literal that both [createJob] bodies build: the clock is read
    once for [createdAt] and once more for [updatedAt]. *)
Definition new_job (uuid : string) (t_created t_updated : Z) (i : JobInput) : Job :=
  {| job_id := uuid;
     job_status := pending;
     job_createdAt := t_created;
     job_updatedAt := t_updated;
     job_input := i;
     job_result := None;
     job_error := None |}.

(** A later source overrides an earlier one, key by key. *)
Definition over {A} (patch : option A) (old : A) : A :=
  match patch with Some v => v | None => old end.

Definition over_opt {A} (patch old : option A) : option A :=
  match patch with Some v => Some v | None => old end.

(** [Object.assign(job, patch, { updatedAt: now })] and
    [{ ...job, ...patch, updatedAt: now }]: the fields of [patch] override
    those of [job], and the last source overrides [updatedAt]. *)
Definition assign (job : Job) (patch : JobPatch) (now : Z) : Job :=
  {| job_id := over (p_id patch) (job_id job);
     job_status := over (p_status patch) (job_status job);
     job_createdAt := over (p_createdAt patch) (job_createdAt job);
     job_updatedAt := now;
     job_input := over (p_input patch) (job_input job);
     job_result := over_opt (p_result patch) (job_result job);
     job_error := over_opt (p_error patch) (job_error job) |}.

(** The retention window and the timer period of the in-memory backend. *)
Definition RETENTION_MS : Z := 60 * 60 * 1000.
Definition SWEEP_INTERVAL_MS : Z := 10 * 60 * 1000.

(** ** In-memory backend ([class InMemoryBackend])

    The [Map] holds references to job objects: [createJob] returns the very
    object it stored, [getJob] returns the stored object and [updateJob]
    mutates it in place.  Objects live in [heap], a reference is an index
    into it, and [store] is the [Map] from id to reference. *)
Module InMemoryBackend.

Record t := mk {
  heap : list Job;
  store : gmap string nat
}.

Definition init : t := {| heap := []; store := ∅ |}.

(** Reading a field of an object through a reference. *)
Definition deref (b : t) (r : nat) : option Job := heap b !! r.

(** The callback of the constructor's [setInterval]: every entry whose
    [createdAt] is before the cutoff is deleted from the map. *)
Definition expired (b : t) (cutoff : Z) (r : nat) : bool :=
  match deref b r with
  | Some job => (job_createdAt job <? cutoff)%Z
  | None => false
  end.

Definition sweep (now : Z) (b : t) : t :=
  let cutoff := (now - RETENTION_MS)%Z in
  {| heap := heap b;
     store := filter (fun kv => expired b cutoff kv.2 = false) (store b) |}.

Definition createJob (uuid : string) (t_created t_updated : Z) (i : JobInput)
    (b : t) : t * nat :=
  let job := new_job uuid t_created t_updated i in
  let r := length (heap b) in
  ({| heap := heap b ++ [job]; store := <[job_id job := r]> (store b) |}, r).

Definition getJob (id : string) (b : t) : option nat := store b !! id.

Definition updateJob (id : string) (patch : JobPatch) (now : Z) (b : t) : t :=
  match store b !! id with
  | Some r =>
      match deref b r with
      | Some job => {| heap := <[r := assign job patch now]> (heap b); store := store b |}
      | None => b
      end
  | None => b
  end.

(** What a caller reads when it looks at the result of [getJob]. *)
Definition read (id : string) (b : t) : option Job :=
  match getJob id b with
  | Some r => deref b r
  | None => None
  end.

(** Every reference in the map points into the heap, and no two ids share
    an object. *)
Definition wf (b : t) : Prop :=
  (forall id r, store b !! id = Some r -> r < length (heap b)) /\
  (forall id1 id2 r, store b !! id1 = Some r -> store b !! id2 = Some r -> id1 = id2).

End InMemoryBackend.

(** ** Promises that may reject *)

Inductive outcome (A : Type) :=
  | Ok (a : A)
  | Threw (msg : string).
Arguments Ok {A} a.
Arguments Threw {A} msg.

#[global] Instance outcome_ret : MRet outcome := fun A a => Ok a.
#[global] Instance outcome_bind : MBind outcome := fun A B k c =>
  match c with
  | Ok a => k a
  | Threw msg => Threw msg
  end.
#[global] Instance outcome_fmap : FMap outcome := fun A B f c =>
  match c with
  | Ok a => Ok (f a)
  | Threw msg => Threw msg
  end.

Definition threw {A} (c : outcome A) : bool :=
  match c with Ok _ => false | Threw _ => true end.

(** ** Text stored in the durable store

    The store holds strings.  [json_of j] is the string that
    [JSON.stringify] produces for the record [j]; [JSON.parse] gives the
    record back (every field of a job is a string, or the opaque payload kept
    in its JSON form, and an absent optional field stays absent).
    [other s] is any string that [JSON.parse] rejects with a [SyntaxError];
    [other ""] is the empty string.  Nothing but this backend writes under
    its prefix, so a string that parses is the image of a job. *)
Inductive text :=
  | json_of (j : Job)
  | other (s : string).

Definition JSON_stringify (j : Job) : text := json_of j.

Definition JSON_parse (raw : text) : outcome Job :=
  match raw with
  | json_of j => Ok j
  | other _ => Threw "SyntaxError"
  end.

(** [!raw] on a string. *)
Definition is_empty (raw : text) : bool :=
  match raw with
  | other "" => true
  | _ => false
  end.

(** ** The ioredis client

    A key holds a value and the instant at which it expires.  A command sent
    while the connection is down is rejected once [maxRetriesPerRequest] is
    used up, and leaves the store as it was. *)
Module Redis.

Record t := mk {
  kv : gmap string (text * Z);
  connected : bool
}.

Definition live (now : Z) (e : text * Z) : option text :=
  if (now <? e.2)%Z then Some e.1 else None.

Definition get (now : Z) (key : string) (c : t) : outcome (option text) :=
  if connected c then Ok (kv c !! key ≫= live now)
  else Threw "Reached the max retries per request limit".

(** [set(key, value, 'EX', seconds)] *)
Definition set_ex (now : Z) (key : string) (v : text) (seconds : Z) (c : t) : outcome t :=
  if connected c
  then Ok {| kv := <[key := (v, (now + seconds * 1000)%Z)]> (kv c); connected := true |}
  else Threw "Reached the max retries per request limit".

End Redis.

(** ** Durable backend ([class BullMQBackend])

    [ready] is the promise of the constructor: it rejects when the client
    library cannot be loaded.  The store runs a command at the instant [now]
    handed to the operation.  [console] is what the backend has written to
    the error console. *)
Module BullMQBackend.

Record t := mk {
  client : Redis.t;
  ready : outcome unit;
  console : list (string * string)
}.

Definition prefix : string := "pot-api:jobs".
Definition TTL_SECONDS : Z := 86400.

Definition key (id : string) : string := prefix ++ ":" ++ id.

Definition with_client (b : t) (c : Redis.t) : t :=
  {| client := c; ready := ready b; console := console b |}.

(** The listener the constructor puts on the client's [error] event:
    [console.error('[pot-api] Redis error:', err.message)]. *)
Definition on_error (err_message : string) (b : t) : t :=
  {| client := client b;
     ready := ready b;
     console := console b ++ [("[pot-api] Redis error:", err_message)] |}.

Definition createJob (uuid : string) (t_created t_updated : Z) (i : JobInput)
    (b : t) : outcome (t * Job) :=
  _ ← ready b;
  let job := new_job uuid t_created t_updated i in
  c ← Redis.set_ex t_updated (key (job_id job)) (JSON_stringify job) TTL_SECONDS (client b);
  mret (with_client b c, job).

Definition getJob (now : Z) (id : string) (b : t) : outcome (option Job) :=
  _ ← ready b;
  raw ← Redis.get now (key id) (client b);
  match raw with
  | None => Ok None
  | Some s =>
      if is_empty s then Ok None
      else match JSON_parse s with
           | Ok j => Ok (Some j)
           | Threw _ => Ok None
           end
  end.

Definition updateJob (now : Z) (id : string) (patch : JobPatch) (b : t) : outcome t :=
  _ ← ready b;
  found ← getJob now id b;
  match found with
  | None => Ok b
  | Some job =>
      let updated := assign job patch now in
      c ← Redis.set_ex now (key (job_id job)) (JSON_stringify updated) TTL_SECONDS (client b);
      mret (with_client b c)
  end.

End BullMQBackend.

(** ** The interface [QueueBackend], its implementations and the facade

    What [createJob] and [getJob] hand to the caller is a JavaScript object:
    the in-memory backend hands out the stored object itself ([shared]), the
    durable one a private copy ([owned]). *)
Inductive jobref :=
  | shared (r : nat)
  | owned (j : Job).

Class QueueBackend (B : Type) := {
  qb_createJob : string -> Z -> Z -> JobInput -> B -> outcome (B * jobref);
  qb_getJob : Z -> string -> B -> outcome (option jobref);
  qb_updateJob : Z -> string -> JobPatch -> B -> outcome B
}.

#[global] Instance InMemory_QueueBackend : QueueBackend InMemoryBackend.t := {|
  qb_createJob uuid t1 t2 i b :=
    let '(b', r) := InMemoryBackend.createJob uuid t1 t2 i b in Ok (b', shared r);
  qb_getJob _ id b := Ok (shared <$> InMemoryBackend.getJob id b);
  qb_updateJob now id patch b := Ok (InMemoryBackend.updateJob id patch now b)
|}.

#[global] Instance BullMQ_QueueBackend : QueueBackend BullMQBackend.t := {|
  qb_createJob uuid t1 t2 i b :=
    match BullMQBackend.createJob uuid t1 t2 i b with
    | Ok (b', j) => Ok (b', owned j)
    | Threw msg => Threw msg
    end;
  qb_getJob now id b :=
    match BullMQBackend.getJob now id b with
    | Ok o => Ok (owned <$> o)
    | Threw msg => Threw msg
    end;
  qb_updateJob now id patch b := BullMQBackend.updateJob now id patch b
|}.

(** [_backend], once [getQueue] has chosen it. *)
Inductive Queue :=
  | Memory (b : InMemoryBackend.t)
  | Durable (b : BullMQBackend.t).

Definition truthy (s : option string) : bool :=
  match s with
  | Some s => negb (String.eqb s "")
  | None => false
  end.

(** [getQueue()]: [REDIS_URL] is looked at only when no backend has been
    built yet; the Redis connection handed in becomes the new client. *)
Definition getQueue (backend : option Queue) (REDIS_URL : option string)
    (c : Redis.t) (loaded : outcome unit) : Queue :=
  match backend with
  | Some q => q
  | None =>
      if truthy REDIS_URL then Durable (BullMQBackend.mk c loaded [])
      else Memory InMemoryBackend.init
  end.

Definition createJob (uuid : string) (t_created t_updated : Z) (i : JobInput)
    (q : Queue) : outcome (Queue * jobref) :=
  match q with
  | Memory b => prod_map Memory id <$> qb_createJob uuid t_created t_updated i b
  | Durable b => prod_map Durable id <$> qb_createJob uuid t_created t_updated i b
  end.

Definition getJob (now : Z) (id : string) (q : Queue) : outcome (option jobref) :=
  match q with
  | Memory b => qb_getJob now id b
  | Durable b => qb_getJob now id b
  end.

Definition updateJob (now : Z) (id : string) (patch : JobPatch) (q : Queue) : outcome Queue :=
  match q with
  | Memory b => Memory <$> qb_updateJob now id patch b
  | Durable b => Durable <$> qb_updateJob now id patch b
  end.

(** The fields a caller sees through a reference it holds. *)
Definition look (q : Queue) (r : jobref) : option Job :=
  match r, q with
  | owned j, _ => Some j
  | shared r, Memory b => InMemoryBackend.deref b r
  | shared _, Durable _ => None
  end.

(** The timer of the in-memory constructor fires; the durable backend has
    no timer. *)
Definition timer (now : Z) (q : Queue) : Queue :=
  match q with
  | Memory b => Memory (InMemoryBackend.sweep now b)
  | Durable b => Durable b
  end.

(** What a poller gets from [getJob] and reads off the returned object. *)
Definition peek (now : Z) (id : string) (q : Queue) : option Job :=
  match getJob now id q with
  | Ok (Some r) => look q r
  | _ => None
  end.

(** ** Sessions: facade calls issued one after the other

    [Tick] is the interval timer of the in-memory constructor firing; the
    other calls are the three operations of the facade.  The answer to
    [createJob] and [getJob] is the content of the object handed back, read
    as soon as the call returns. *)
Inductive call :=
  | Create (uuid : string) (t_created t_updated : Z) (i : JobInput)
  | Get (now : Z) (id : string)
  | Put (now : Z) (id : string) (patch : JobPatch)
  | Tick (now : Z).

Inductive answer :=
  | Returned (j : option Job)
  | Finished
  | Rejected (msg : string).

Definition step (c : call) (q : Queue) : Queue * answer :=
  match c with
  | Create uuid t1 t2 i =>
      match createJob uuid t1 t2 i q with
      | Ok (q', r) => (q', Returned (look q' r))
      | Threw msg => (q, Rejected msg)
      end
  | Get now id =>
      match getJob now id q with
      | Ok o => (q, Returned (o ≫= look q))
      | Threw msg => (q, Rejected msg)
      end
  | Put now id patch =>
      match updateJob now id patch q with
      | Ok q' => (q', Finished)
      | Threw msg => (q, Rejected msg)
      end
  | Tick now => (timer now q, Finished)
  end.

Fixpoint run (cs : list call) (q : Queue) : Queue * list (call * answer) :=
  match cs with
  | [] => (q, [])
  | c :: cs =>
      let '(q1, a) := step c q in
      let '(q2, log) := run cs q1 in
      (q2, (c, a) :: log)
  end.

(** The ids of the jobs that the [createJob] calls of a session returned. *)
Definition created_id (ca : call * answer) : option string :=
  match ca with
  | (Create _ _ _ _, Returned (Some j)) => Some (job_id j)
  | _ => None
  end.

Definition created_ids (log : list (call * answer)) : list string := omap created_id log.

(** The values [randomUUID()] took in a session. *)
Definition uuid_of (c : call) : option string :=
  match c with
  | Create uuid _ _ _ => Some uuid
  | _ => None
  end.

Definition uuids (cs : list call) : list string := omap uuid_of cs.

(** ** The job runner and the webhook dispatcher ([index.ts]) *)

(** The body of the webhook: [{ jobId, status, result }] or
    [{ jobId, status, error }]. *)
Record WebhookPayload := mkPayload {
  w_jobId : string;
  w_status : JobStatus;
  w_result : option Payload;
  w_error : option string
}.

(** The argument of [fetch]; [timeout_ms] is the delay of
    [AbortSignal.timeout]. *)
Record Request := mkRequest {
  url : string;
  method : string;
  headers : list (string * string);
  body : WebhookPayload;
  timeout_ms : Z
}.

(** What the runner does to the outside, in the order it does it. *)
Inductive effect :=
  | Update (now : Z) (id : string) (patch : JobPatch)
  | Verify (output : string) (tier : Tier) (apiKeys : list (string * string)) (question : string)
  | Fetch (req : Request)
  | Warn (msg : string) (err : string).

(** The outside of one run: the clock reading of each [updateJob]; what
    [verify] settles to; what the other requests and the timer do to the
    queue while the runner waits for [verify]; and what [fetch] settles to
    (the status code of the response, or a rejection: network error, abort
    by the timeout). *)
Record Env := mkEnv {
  now_running : Z;
  now_done : Z;
  now_error : Z;
  verify_settles : outcome Payload;
  meanwhile : list call;
  fetch_settles : outcome Z
}.

(** The state a run threads: the queue, and the log of every effect with
    the queue as it stood once the effect was over. *)
Record World := mkWorld {
  queue : Queue;
  history : list (effect * Queue)
}.

Definition M (A : Type) : Type := World -> outcome A * World.

Definition ret {A} (a : A) : M A := fun w => (Ok a, w).

Definition bind {A B} (c : M A) (k : A -> M B) : M B := fun w =>
  match c w with
  | (Ok a, w') => k a w'
  | (Threw msg, w') => (Threw msg, w')
  end.

(** [try { body } catch (err) { handler(err) }] *)
Definition try_catch {A} (body : M A) (handler : string -> M A) : M A := fun w =>
  match body w with
  | (Ok a, w') => (Ok a, w')
  | (Threw msg, w') => handler msg w'
  end.

Declare Scope run_scope.
Delimit Scope run_scope with run.
Notation "x <- c ;; k" := (bind c (fun x => k))
  (at level 100, c at next level, right associativity) : run_scope.
Notation "c ;; k" := (bind c (fun _ => k))
  (at level 100, right associativity) : run_scope.

Definition emit (e : effect) (w : World) : World :=
  {| queue := queue w; history := history w ++ [(e, queue w)] |}.

Definition await_updateJob (now : Z) (id : string) (patch : JobPatch) : M unit := fun w =>
  match updateJob now id patch (queue w) with
  | Ok q' => (Ok tt, emit (Update now id patch) {| queue := q'; history := history w |})
  | Threw msg => (Threw msg, emit (Update now id patch) w)
  end.

Definition await_verify (e : Env) (output : string) (tier : Tier)
    (apiKeys : list (string * string)) (question : string) : M Payload := fun w =>
  (verify_settles e,
   emit (Verify output tier apiKeys question)
     {| queue := (run (meanwhile e) (queue w)).1; history := history w |}).

Definition await_fetch (e : Env) (req : Request) : M Z := fun w =>
  (fetch_settles e, emit (Fetch req) w).

Definition console_warn (msg err : string) : M unit := fun w =>
  (Ok tt, emit (Warn msg err) w).

Definition status_patch (s : JobStatus) (r : option Payload) (e : option string) : JobPatch :=
  {| p_id := None; p_status := Some s; p_createdAt := None; p_updatedAt := None;
     p_input := None; p_result := r; p_error := e |}.

Definition pushWebhook (e : Env) (url : string) (payload : WebhookPayload) : M unit :=
  try_catch
    (_ <- await_fetch e {| url := url;
                           method := "POST";
                           headers := [("Content-Type", "application/json")];
                           body := payload;
                           timeout_ms := 10000 |} ;;
     ret tt)%run
    (fun err => console_warn ("[pot-api] Webhook delivery failed for " ++ url ++ ":") err).

(** [if (callbackUrl) { await pushWebhook(callbackUrl, payload) }] *)
Definition notify (e : Env) (callbackUrl : option string) (payload : WebhookPayload) : M unit :=
  match callbackUrl with
  | Some url => if truthy callbackUrl then pushWebhook e url payload else ret tt
  | None => ret tt
  end.

Definition runJob (e : Env) (jobId output question : string) (tier : Tier)
    (apiKeys : list (string * string)) (callbackUrl : option string) : M unit :=
  (await_updateJob (now_running e) jobId (status_patch running None None) ;;
   try_catch
     (result <- await_verify e output tier apiKeys question ;;
      await_updateJob (now_done e) jobId (status_patch done (Some result) None) ;;
      notify e callbackUrl (mkPayload jobId done (Some result) None))
     (fun err =>
        await_updateJob (now_error e) jobId (status_patch error None (Some err)) ;;
        notify e callbackUrl (mkPayload jobId error None (Some err))))%run.

Definition start (q : Queue) : World := {| queue := q; history := [] |}.

Definition effects (w : World) : list effect := (history w).*1.

(** ** Credentials ([config.ts]) *)

Record ApiKeys := mkApiKeys {
  anthropic : option string;
  xai : option string;
  deepseek : option string;
  moonshot : option string
}.

(** [a ?? b] *)
Definition nullish {A} (a b : option A) : option A :=
  match a with Some v => Some v | None => b end.

Definition resolveKeys (override : option ApiKeys) (process_env : ApiKeys) : ApiKeys :=
  {| anthropic := nullish (override ≫= anthropic) (anthropic process_env);
     xai := nullish (override ≫= xai) (xai process_env);
     deepseek := nullish (override ≫= deepseek) (deepseek process_env);
     moonshot := nullish (override ≫= moonshot) (moonshot process_env) |}.

(** [if (keys.k) record['k'] = keys.k] *)
Definition entry (name : string) (k : option string) : list (string * string) :=
  match k with
  | Some v => if truthy k then [(name, v)] else []
  | None => []
  end.

Definition buildApiKeyRecord (keys : ApiKeys) : list (string * string) :=
  entry "anthropic" (anthropic keys) ++ entry "xai" (xai keys)
  ++ entry "deepseek" (deepseek keys) ++ entry "moonshot" (moonshot keys).

Definition validateConfig (keys : ApiKeys) : option string :=
  if truthy (anthropic keys) then None else Some "ANTHROPIC_API_KEY is required.".

(** ** The handlers of [POST /verify/async] and [GET /jobs/:id] ([index.ts]) *)

Record AsyncBody := mkAsyncBody {
  b_output : option string;
  b_question : option string;
  b_tier : option Tier;
  b_callbackUrl : option string;
  b_apiKeys : option ApiKeys
}.

Inductive Response :=
  | BadRequest (message : string)
  | Accepted (jobId : string) (status : JobStatus) (pollUrl : string)
  | NotFound (message : string)
  | Found (job : Job)
  | Verified (result : Payload)
  | Failed (message : string).

(** The response is sent once [createJob] has resolved; the runner is then
    started and not awaited, so what it settles to is dropped. *)
Definition verify_async (process_env : ApiKeys) (uuid : string) (t_created t_updated : Z)
    (e : Env) (req : AsyncBody) : M Response := fun w =>
  match b_output req, b_question req with
  | Some output, Some question =>
      if negb (truthy (b_output req)) || negb (truthy (b_question req))
      then (Ok (BadRequest "output and question are required"), w)
      else
        let tier := default basic (b_tier req) in
        let keys := resolveKeys (b_apiKeys req) process_env in
        match validateConfig keys with
        | Some configError => (Ok (BadRequest configError), w)
        | None =>
            match createJob uuid t_created t_updated
                    (mkJobInput output question tier (b_callbackUrl req)) (queue w) with
            | Threw msg => (Threw msg, w)
            | Ok (q1, r) =>
                match look q1 r with
                | Some job =>
                    let w1 := {| queue := q1; history := history w |} in
                    (Ok (Accepted (job_id job) pending ("/jobs/" ++ job_id job)),
                     (runJob e (job_id job) output question tier
                        (buildApiKeyRecord keys) (b_callbackUrl req) w1).2)
                | None => (Threw "TypeError", {| queue := q1; history := history w |})
                end
            end
        end
  | _, _ => (Ok (BadRequest "output and question are required"), w)
  end.

Definition poll (now : Z) (id : string) (q : Queue) : outcome Response :=
  match getJob now id q with
  | Threw msg => Threw msg
  | Ok None => Ok (NotFound "Job not found")
  | Ok (Some r) =>
      match look q r with
      | Some job => Ok (Found job)
      | None => Ok (NotFound "Job not found")
      end
  end.

(** The durable store is reachable: the client library loaded and commands
    get through. *)
Definition healthy (q : Queue) : Prop :=
  match q with
  | Memory _ => True
  | Durable b => BullMQBackend.ready b = Ok tt /\ Redis.connected (BullMQBackend.client b) = true
  end.

(** A record is in step with its status when [result] is there exactly for
    [done] and [error] exactly for [error]. *)
Definition in_step (j : Job) : Prop :=
  (is_Some (job_result j) <-> job_status j = done) /\
  (is_Some (job_error j) <-> job_status j = error).

Definition DAY_MS : Z := 86400 * 1000.

(** ** Sessions on the in-memory backend *)
Module Expiry.
Import InMemoryBackend.

(** The instant of the [k]-th firing of a timer armed at [t0]. *)
Definition firing (t0 : Z) (k : nat) : Z := (t0 + (Z.of_nat k + 1) * SWEEP_INTERVAL_MS)%Z.

(** One call of a session, as the in-memory backend takes it. *)
Definition mstep (c : call) (b : t) : t :=
  match c with
  | Create uuid t1 t2 i => (createJob uuid t1 t2 i b).1
  | Get _ _ => b
  | Put now id patch => updateJob id patch now b
  | Tick now => sweep now b
  end.

(** A call that neither draws the id again nor patches its [createdAt]. *)
Definition keeps (uuid : string) (c : call) : Prop :=
  match c with
  | Create u _ _ _ => u <> uuid
  | Put _ id patch => id = uuid -> p_createdAt patch = None
  | _ => True
  end.

(** A call that is not a firing of the timer later than [limit]. *)
Definition by_then (limit : Z) (c : call) : Prop :=
  match c with
  | Tick now => (now <= limit)%Z
  | _ => True
  end.

End Expiry.

(** ** Notions used in the statements *)

(** What the durable store holds under an id at a given instant. *)
Definition held (now : Z) (id : string) (b : BullMQBackend.t) : option Job :=
  match Redis.kv (BullMQBackend.client b) !! BullMQBackend.key id ≫= Redis.live now with
  | Some (json_of j) => Some j
  | _ => None
  end.

(** The store has no job under [id] at the instant [now]: the in-memory map
    has no such key; the durable store holds under the key no value that is
    alive, or one that is no job. *)
Definition unknown (now : Z) (id : string) (q : Queue) : Prop :=
  match q with
  | Memory b => InMemoryBackend.store b !! id = None
  | Durable b => held now id b = None
  end.

Definition eiffel : JobInput :=
  mkJobInput "The Eiffel Tower is 330m tall." "How tall is the Eiffel Tower?" basic None.

(** The record found under [id] once [updateJob] has run on it.  The
    in-memory backend mutates the object the map holds under [id].  The
    durable backend writes the merged record under the key built from the
    [id] field of the record it read, which is the key it read from only if
    that field still is [id]. *)
Definition written_back (q : Queue) (id : string) (j : Job) : bool :=
  match q with
  | Memory _ => true
  | Durable _ => bool_decide (job_id j = id)
  end.

(** A call on the job [uuid] itself that carries neither [createdAt] nor
    [input], or a call that writes nothing. *)
Definition spares (uuid : string) (c : call) : Prop :=
  match c with
  | Create _ _ _ _ => False
  | Put _ id patch => id = uuid /\ p_createdAt patch = None /\ p_input patch = None
  | Get _ _ | Tick _ => True
  end.

(** Whatever is stored under [uuid] was created at [t1] from [i]. *)
Definition stored_as (uuid : string) (t1 : Z) (i : JobInput) (q : Queue) : Prop :=
  match q with
  | Memory b =>
      forall j, InMemoryBackend.read uuid b = Some j -> job_createdAt j = t1 /\ job_input j = i
  | Durable b =>
      forall j deadline,
        Redis.kv (BullMQBackend.client b) !! BullMQBackend.key uuid = Some (json_of j, deadline) ->
        job_createdAt j = t1 /\ job_input j = i
  end.

Definition durable_init : Queue := Durable (BullMQBackend.mk (Redis.mk ∅ true) (Ok tt) []).

Definition webhook_request (url : string) (payload : WebhookPayload) : Request :=
  {| url := url;
     method := "POST";
     headers := [("Content-Type", "application/json")];
     body := payload;
     timeout_ms := 10000 |}.

(** What [pushWebhook] adds to the log, the queue being [q]. *)
Definition push_log (e : Env) (url : string) (payload : WebhookPayload) (q : Queue)
    : list (effect * Queue) :=
  (Fetch (webhook_request url payload), q)
  :: match fetch_settles e with
     | Ok _ => []
     | Threw err => [(Warn ("[pot-api] Webhook delivery failed for " ++ url ++ ":") err, q)]
     end.

Definition notify_log (e : Env) (callbackUrl : option string) (payload : WebhookPayload)
    (q : Queue) : list (effect * Queue) :=
  match callbackUrl with
  | Some url => if truthy callbackUrl then push_log e url payload q else []
  | None => []
  end.

(** The terminal write of a run and the body of its webhook: [done] with
    the result when [verify] resolves, [error] with the message when it
    rejects. *)
Definition terminal_status (e : Env) : JobStatus :=
  match verify_settles e with Ok _ => done | Threw _ => error end.

Definition terminal_now (e : Env) : Z :=
  match verify_settles e with Ok _ => now_done e | Threw _ => now_error e end.

Definition terminal_patch (e : Env) : JobPatch :=
  match verify_settles e with
  | Ok result => status_patch done (Some result) None
  | Threw err => status_patch error None (Some err)
  end.

Definition terminal_payload (e : Env) (jobId : string) : WebhookPayload :=
  match verify_settles e with
  | Ok result => mkPayload jobId done (Some result) None
  | Threw err => mkPayload jobId error None (Some err)
  end.

(** Every record of the queue sits under its own id: no two ids of the
    in-memory map share an object, and the [id] field of a record of the
    durable store names the key it is stored under. *)
Definition tidy (q : Queue) : Prop :=
  match q with
  | Memory b => InMemoryBackend.wf b
  | Durable b =>
      forall id j deadline,
        Redis.kv (BullMQBackend.client b) !! BullMQBackend.key id = Some (json_of j, deadline) ->
        job_id j = id
  end.

(** A call made for another job than [uuid] whose patch leaves the [id]
    field alone, a read, or a firing of the timer no later than [limit]. *)
Definition foreign (uuid : string) (limit : Z) (c : call) : Prop :=
  match c with
  | Create u _ _ _ => u <> uuid
  | Get _ _ => True
  | Put _ id patch => id <> uuid /\ p_id patch = None
  | Tick now => (now <= limit)%Z
  end.

(** An instant within the day that starts at [lo]: no key written that day
    expires before it. *)
Definition within (lo t : Z) : Prop := (lo <= t < lo + DAY_MS)%Z.

(** An effect that is neither a write to the queue nor the verification
    call. *)
Definition quiet (x : effect) : Prop :=
  match x with
  | Fetch _ | Warn _ _ => True
  | Update _ _ _ | Verify _ _ _ _ => False
  end.

(** The status a poller would get after each effect of a run. *)
Definition seen (poll : Z) (id : string) (h : list (effect * Queue)) : list (option JobStatus) :=
  (fun x => job_status <$> peek poll id x.2) <$> h.

(** A run during which another job is created and updated and the timer
    fires, and whose webhook is not answered in time. *)
Definition busy_env : Env :=
  mkEnv 2000 3000 3000 (Ok "verified")
    [Create "b" 2100 2100 eiffel; Put 2200 "b" (status_patch running None None);
     Tick 2500; Get 2600 "a"]
    (Threw "timeout").

Definition is_fetch (x : effect) : bool :=
  match x with Fetch _ => true | _ => false end.

Definition is_warn (x : effect) : bool :=
  match x with Warn _ _ => true | _ => false end.

(** A response whose status code is outside 200..299. *)
Definition non_success (code : Z) : bool := negb ((200 <=? code)%Z && (code <=? 299)%Z).

(** Where a job stands with the two retention rules, read off the calls of
    a session alone.  [both createdAt updatedAt]: the in-memory map has the
    job, and the durable store keeps its key until a day after [updatedAt],
    the instant of its last write.  [swept updatedAt]: a firing of the
    in-memory timer later than one hour after [createdAt] has deleted the
    job from the map, while the key of the durable store still lasts until a
    day after [updatedAt]. *)
Inductive standing :=
  | both (createdAt updatedAt : Z)
  | swept (updatedAt : Z).

Definition sweep_standing (now : Z) (s : standing) : standing :=
  match s with
  | both c u => if (c <? now - RETENTION_MS)%Z then swept u else both c u
  | swept u => swept u
  end.

(** What a call does to the standing of the jobs. *)
Definition note (c : call) (l : gmap string standing) : gmap string standing :=
  match c with
  | Create uuid t1 t2 _ => <[uuid := both t1 t2]> l
  | Get _ _ => l
  | Put now id patch =>
      match l !! id with
      | Some (both c _) => <[id := both (over (p_createdAt patch) c) now]> l
      | _ => l
      end
  | Tick now => sweep_standing now <$> l
  end.

(** The two retention rules give the same verdict on the job that a call
    addresses: either both backends have it (it was not swept and its key
    has not expired), or neither has (it was swept and its key has expired,
    or it was never created).  A patch applied to a job leaves the [id]
    field as it is. *)
Definition concordant (c : call) (l : gmap string standing) : bool :=
  match c with
  | Create _ _ _ _ | Tick _ => true
  | Get now id =>
      match l !! id with
      | Some (both _ u) => (now <? u + DAY_MS)%Z
      | Some (swept u) => (u + DAY_MS <=? now)%Z
      | None => true
      end
  | Put now id patch =>
      match l !! id with
      | Some (both _ u) => (now <? u + DAY_MS)%Z && bool_decide (over (p_id patch) id = id)
      | Some (swept u) => (u + DAY_MS <=? now)%Z
      | None => true
      end
  end.

Fixpoint agreeable (l : gmap string standing) (cs : list call) : bool :=
  match cs with
  | [] => true
  | c :: cs => concordant c l && agreeable (note c l) cs
  end.

(** The standings at the end of a session. *)
Definition standings (cs : list call) : gmap string standing :=
  foldl (fun l c => note c l) ∅ cs.

(** The two stores hold the jobs as their standings say. *)
Definition agree (l : gmap string standing) (b : InMemoryBackend.t) (d : BullMQBackend.t) : Prop :=
  InMemoryBackend.wf b /\
  healthy (Durable d) /\
  forall id,
    match l !! id with
    | Some (both c u) =>
        exists j,
          InMemoryBackend.read id b = Some j /\ job_id j = id /\ job_createdAt j = c /\
          Redis.kv (BullMQBackend.client d) !! BullMQBackend.key id
          = Some (json_of j, (u + DAY_MS)%Z)
    | Some (swept u) =>
        InMemoryBackend.read id b = None /\
        exists j,
          Redis.kv (BullMQBackend.client d) !! BullMQBackend.key id
          = Some (json_of j, (u + DAY_MS)%Z)
    | None =>
        InMemoryBackend.read id b = None /\
        Redis.kv (BullMQBackend.client d) !! BullMQBackend.key id = None
    end.

(** The record of a job as created, once running, and once the run is over. *)
Definition as_created (uuid : string) (t1 t2 : Z) (i : JobInput) : Job := new_job uuid t1 t2 i.

Definition as_running (e : Env) (j : Job) : Job :=
  assign j (status_patch running None None) (now_running e).

Definition as_settled (e : Env) (j : Job) : Job :=
  assign (as_running e j) (terminal_patch e) (terminal_now e).

(** ** The handler of [POST /verify] ([index.ts])

    The body is validated as for the asynchronous endpoint; then [verify]
    is awaited inside [try]: its result is the response, and what it throws
    becomes a 500 with the message.  The handler makes no call to the
    queue. *)
Definition verify_sync (process_env : ApiKeys) (e : Env) (req : AsyncBody) : M Response :=
  fun w =>
  match b_output req, b_question req with
  | Some output, Some question =>
      if negb (truthy (b_output req)) || negb (truthy (b_question req))
      then (Ok (BadRequest "output and question are required"), w)
      else
        let tier := default basic (b_tier req) in
        let keys := resolveKeys (b_apiKeys req) process_env in
        match validateConfig keys with
        | Some configError => (Ok (BadRequest configError), w)
        | None =>
            try_catch
              (result <- await_verify e output tier (buildApiKeyRecord keys) question ;;
               ret (Verified result))%run
              (fun err => ret (Failed err))
              w
        end
  | _, _ => (Ok (BadRequest "output and question are required"), w)
  end.

(** ** The process: [_backend] and the environment of each call

    [getQueue()] runs at every call of a facade function, with the
    environment as it is at that moment. *)
Record Settings := mkSettings {
  REDIS_URL : option string;
  connection : Redis.t;
  library : outcome unit
}.

Definition facade_call (s : Settings) (c : call) (backend : option Queue)
    : option Queue * answer :=
  match c with
  | Tick now => (timer now <$> backend, Finished)
  | _ =>
      let '(q, a) := step c (getQueue backend (REDIS_URL s) (connection s) (library s)) in
      (Some q, a)
  end.

Fixpoint serve (cs : list (Settings * call)) (backend : option Queue) : option Queue :=
  match cs with
  | [] => backend
  | (s, c) :: cs => serve cs (facade_call s c backend).1
  end.

Definition is_durable (q : Queue) : bool :=
  match q with Memory _ => false | Durable _ => true end.

Definition is_tick (c : call) : bool :=
  match c with Tick _ => true | _ => false end.

(** ** More notions used in the statements *)

(** A call whose patch, if it has one, leaves the [id] field alone. *)
Definition keeps_id (c : call) : Prop :=
  match c with
  | Put _ _ patch => p_id patch = None
  | _ => True
  end.

(** A call whose patch, if it has one, leaves [createdAt] alone. *)
Definition keeps_createdAt (c : call) : Prop :=
  match c with
  | Put _ _ patch => p_createdAt patch = None
  | _ => True
  end.

(** A [createJob] or [updateJob] for another id than [id], or a read. *)
Definition elsewhere (id : string) (c : call) : Prop :=
  match c with
  | Create u _ _ _ => u <> id
  | Put _ id' _ => id' <> id
  | Get _ _ => True
  | Tick _ => False
  end.

(** The clock readings of a session never go back: each is at or after
    the one before, starting from [t0]. *)
Fixpoint chronological (t0 : Z) (cs : list call) : Prop :=
  match cs with
  | [] => True
  | Create _ t1 t2 _ :: cs => (t0 <= t1 <= t2)%Z /\ chronological t2 cs
  | Get now _ :: cs => (t0 <= now)%Z /\ chronological now cs
  | Put now _ _ :: cs => (t0 <= now)%Z /\ chronological now cs
  | Tick now :: cs => (t0 <= now)%Z /\ chronological now cs
  end.

(** Every record the queue holds, whether or not it can still be read. *)
Definition holds (q : Queue) (j : Job) : Prop :=
  match q with
  | Memory b => exists r, InMemoryBackend.heap b !! r = Some j
  | Durable b =>
      exists k deadline, Redis.kv (BullMQBackend.client b) !! k = Some (json_of j, deadline)
  end.

(** Every record of [q] is in order: it was not updated before it was
    created, and not after [t]. *)
Definition in_order (t : Z) (q : Queue) : Prop :=
  forall j, holds q j -> (job_createdAt j <= job_updatedAt j <= t)%Z.

(** The durable store cannot be used: the client library did not load, or
    the connection is down. *)
Definition down (b : BullMQBackend.t) : Prop :=
  (exists msg, BullMQBackend.ready b = Threw msg) \/
  Redis.connected (BullMQBackend.client b) = false.

(** Every id under which the queue holds something is one of [ids], and a
    record held under an id has that id in its [id] field. *)
Definition registered (ids : list string) (q : Queue) : Prop :=
  match q with
  | Memory b =>
      InMemoryBackend.wf b /\
      forall id j, InMemoryBackend.read id b = Some j -> id ∈ ids /\ job_id j = id
  | Durable b =>
      forall id v deadline,
        Redis.kv (BullMQBackend.client b) !! BullMQBackend.key id = Some (v, deadline) ->
        id ∈ ids /\ forall j, v = json_of j -> job_id j = id
  end.

(** A queue as the process first builds it. *)
Definition fresh (q : Queue) : Prop := q = Memory InMemoryBackend.init \/ q = durable_init.

(** A call that does not draw the id [id] anew. *)
Definition not_redrawn (id : string) (c : call) : Prop := uuid_of c <> Some id.

(** A request body that passes the validation of both endpoints. *)
Definition valid_request (process_env : ApiKeys) (req : AsyncBody) : Prop :=
  truthy (b_output req) = true /\ truthy (b_question req) = true /\
  truthy (anthropic (resolveKeys (b_apiKeys req) process_env)) = true.

(** A process environment with the mandatory key, and a request for the
    asynchronous endpoint with a callback. *)
Definition sample_keys : ApiKeys := mkApiKeys (Some "sk-ant") None (Some "") None.

Definition sample_request : AsyncBody :=
  mkAsyncBody (Some "The Eiffel Tower is 330m tall.") (Some "How tall is the Eiffel Tower?")
    None (Some "http://cb") None.

(** One patch laid over another: a key of [later] hides the same key of
    [earlier]. *)
Definition lay (later earlier : JobPatch) : JobPatch :=
  {| p_id := over_opt (p_id later) (p_id earlier);
     p_status := over_opt (p_status later) (p_status earlier);
     p_createdAt := over_opt (p_createdAt later) (p_createdAt earlier);
     p_updatedAt := over_opt (p_updatedAt later) (p_updatedAt earlier);
     p_input := over_opt (p_input later) (p_input earlier);
     p_result := over_opt (p_result later) (p_result earlier);
     p_error := over_opt (p_error later) (p_error earlier) |}.

(** * Properties *)

(** ** Keys of the durable store *)

Lemma key_inj (a b : string) : BullMQBackend.key a = BullMQBackend.key b -> a = b.
Proof.
  unfold BullMQBackend.key, BullMQBackend.prefix. simpl. intros H. by simplify_eq.
Qed.

Lemma key_ne (a b : string) : a <> b -> BullMQBackend.key a <> BullMQBackend.key b.
Proof. intros Hne Hk. by apply Hne, key_inj. Qed.

(** ** One call on the durable backend, store reachable *)

Section durable_calls.
Import BullMQBackend.
Variable b : BullMQBackend.t.
Hypothesis Hready : ready b = Ok tt.
Hypothesis Hconn : Redis.connected (client b) = true.

Lemma durable_getJob_eq now id :
  getJob now id b =
  Ok (match Redis.kv (client b) !! key id ≫= Redis.live now with
      | Some (json_of j) => Some j
      | _ => None
      end).
Proof.
  unfold getJob, Redis.get. rewrite Hready, Hconn. simpl.
  destruct (Redis.kv (client b) !! key id ≫= Redis.live now) as [[j|s]|]; simpl; try done.
  destruct s as [|? ?]; done.
Qed.

Lemma durable_updateJob_eq now id patch :
  updateJob now id patch b =
  Ok (match getJob now id b with
      | Ok (Some job) =>
          with_client b
            {| Redis.kv := <[key (job_id job) :=
                               (json_of (assign job patch now), (now + TTL_SECONDS * 1000)%Z)]>
                             (Redis.kv (client b));
               Redis.connected := true |}
      | _ => b
      end).
Proof.
  unfold updateJob. rewrite Hready. simpl.
  rewrite durable_getJob_eq. simpl.
  destruct (Redis.kv (client b) !! key id ≫= Redis.live now) as [[j|s]|]; simpl; try done.
  unfold Redis.set_ex. rewrite Hconn. done.
Qed.

Lemma durable_createJob_eq uuid t1 t2 i :
  createJob uuid t1 t2 i b =
  Ok (with_client b
        {| Redis.kv := <[key uuid :=
                           (json_of (new_job uuid t1 t2 i), (t2 + TTL_SECONDS * 1000)%Z)]>
                         (Redis.kv (client b));
           Redis.connected := true |},
      new_job uuid t1 t2 i).
Proof.
  unfold createJob, Redis.set_ex. rewrite Hready. simpl. rewrite Hconn. done.
Qed.
End durable_calls.

(** ** C4: an unknown id *)

(** C4, as the code has it.  For an id under which the store has no job
    (the in-memory map has no such key; the durable store holds nothing
    alive that it can read under the key) and any patch: when the store is
    reachable, which the in-memory one always is, [updateJob] resolves
    without throwing and leaves the whole queue as it was, so no record is
    created; when the durable store is not reachable, [updateJob] rejects. *)
Theorem updateJob_unknown_id_is_noop (q : Queue) (now : Z) (id : string) (patch : JobPatch) :
  unknown now id q ->
  (healthy q -> updateJob now id patch q = Ok q) /\
  (~ healthy q -> exists msg, updateJob now id patch q = Threw msg).
Proof.
  destruct q as [b|b]; simpl; intros Hun.
  - split; [|tauto]. intros _.
    unfold InMemoryBackend.updateJob. by rewrite Hun.
  - split.
    + intros [Hr Hc]. rewrite durable_updateJob_eq, durable_getJob_eq by done.
      fold (held now id b). by rewrite Hun.
    + intros Hdown. unfold BullMQBackend.updateJob, BullMQBackend.getJob, Redis.get.
      destruct (BullMQBackend.ready b) as [[]|msg]; simpl; [|by eexists].
      destruct (Redis.connected (BullMQBackend.client b)); simpl; [tauto|by eexists].
Qed.

(** C4 as stated fails on the durable backend: with the connection down,
    [updateJob] for an id that the store does not hold rejects instead of
    returning. *)
Lemma updateJob_unknown_id_rejects_when_store_is_down :
  let q := Durable (BullMQBackend.mk (Redis.mk ∅ false) (Ok tt) []) in
  unknown 5 "nobody" q /\
  updateJob 5 "nobody" empty_patch q = Threw "Reached the max retries per request limit".
Proof. split; reflexivity. Qed.

(** ** One call on the in-memory backend *)

Module MemoryFacts.
Import InMemoryBackend.

Lemma wf_init : wf init.
Proof. split; intros *; simpl; by rewrite lookup_empty. Qed.

Lemma wf_createJob uuid t1 t2 i b : wf b -> wf (createJob uuid t1 t2 i b).1.
Proof.
  intros [Hin Hinj]. split; simpl.
  - intros id r. rewrite length_app. simpl.
    destruct (decide (uuid = id)) as [->|Hne].
    + rewrite lookup_insert_eq. intros [= <-]. lia.
    + rewrite lookup_insert_ne by done. intros H%Hin. lia.
  - intros id1 id2 r.
    destruct (decide (id1 = uuid)) as [->|Hne1], (decide (id2 = uuid)) as [->|Hne2];
      rewrite ?lookup_insert_eq, ?lookup_insert_ne by done; try done.
    + intros [= <-] H%Hin. lia.
    + intros H%Hin [= <-]. lia.
    + apply Hinj.
Qed.

Lemma wf_updateJob id patch now b : wf b -> wf (updateJob id patch now b).
Proof.
  intros [Hin Hinj]. unfold updateJob.
  destruct (store b !! id) as [r|]; [|done].
  destruct (deref b r); [|done].
  split; simpl; [|done]. intros id' r'. rewrite length_insert. apply Hin.
Qed.

Lemma wf_sweep now b : wf b -> wf (sweep now b).
Proof.
  intros [Hin Hinj]. split; simpl.
  - intros id r [H _]%map_lookup_filter_Some. by eapply Hin.
  - intros id1 id2 r [H1 _]%map_lookup_filter_Some [H2 _]%map_lookup_filter_Some.
    by eapply Hinj.
Qed.

Lemma createJob_ref uuid t1 t2 i b :
  deref (createJob uuid t1 t2 i b).1 (createJob uuid t1 t2 i b).2
  = Some (new_job uuid t1 t2 i).
Proof.
  unfold deref. simpl. rewrite lookup_app_r by lia.
  by rewrite Nat.sub_diag.
Qed.

Lemma getJob_createJob uuid t1 t2 i b :
  getJob uuid (createJob uuid t1 t2 i b).1 = Some (createJob uuid t1 t2 i b).2.
Proof. unfold getJob. simpl. by rewrite lookup_insert_eq. Qed.

Lemma read_createJob_eq uuid t1 t2 i b :
  read uuid (createJob uuid t1 t2 i b).1 = Some (new_job uuid t1 t2 i).
Proof. unfold read. rewrite getJob_createJob. apply createJob_ref. Qed.

Lemma read_createJob_ne uuid t1 t2 i b id :
  wf b -> id <> uuid -> read id (createJob uuid t1 t2 i b).1 = read id b.
Proof.
  intros [Hin _] Hne. unfold read, getJob, deref. simpl.
  rewrite lookup_insert_ne by done.
  destruct (store b !! id) as [r|] eqn:Hr; [|done].
  apply Hin in Hr. by rewrite lookup_app_l.
Qed.

Lemma read_updateJob_eq id patch now b :
  read id (updateJob id patch now b) = (fun j => assign j patch now) <$> read id b.
Proof.
  unfold read, getJob, updateJob.
  destruct (store b !! id) as [r|] eqn:Hr; [|by rewrite Hr].
  destruct (deref b r) as [j|] eqn:Hj; simpl.
  - rewrite Hr. unfold deref in *. simpl.
    rewrite list_lookup_insert_eq; [done|]. by eapply lookup_lt_Some.
  - by rewrite Hr, Hj.
Qed.

Lemma read_updateJob_ne id patch now b id' :
  wf b -> id' <> id -> read id' (updateJob id patch now b) = read id' b.
Proof.
  intros [_ Hinj] Hne. unfold read, getJob, updateJob.
  destruct (store b !! id) as [r|] eqn:Hr; [|done].
  destruct (deref b r) as [j|] eqn:Hj; [|done]. simpl.
  destruct (store b !! id') as [r'|] eqn:Hr'; [|done].
  unfold deref. simpl. rewrite list_lookup_insert_ne; [done|].
  intros ->. apply Hne. by eapply Hinj.
Qed.

(** The timer deletes exactly the entries created before the cutoff,
    whatever their status. *)
Lemma read_sweep now b id :
  read id (sweep now b) =
  match read id b with
  | Some j => if (job_createdAt j <? now - RETENTION_MS)%Z then None else Some j
  | None => None
  end.
Proof.
  unfold read, getJob, sweep. simpl.
  destruct (store b !! id) as [r|] eqn:Hr.
  - unfold expired at 1. unfold deref at 2 3. simpl.
    destruct (heap b !! r) as [j|] eqn:Hj.
    + destruct (job_createdAt j <? now - RETENTION_MS)%Z eqn:Hlt.
      * rewrite (proj2 (map_lookup_filter_None _ _ _)); [done|].
        right. intros r' Hr'. simpl. rewrite Hr in Hr'. simplify_eq.
        unfold expired, deref. rewrite Hj, Hlt. done.
      * rewrite (map_lookup_filter_Some_2 _ _ _ r); simpl; [by unfold deref| done |].
        unfold expired, deref. by rewrite Hj, Hlt.
    + rewrite (map_lookup_filter_Some_2 _ _ _ r); simpl; [by unfold deref| done |].
      unfold expired, deref. by rewrite Hj.
  - rewrite (proj2 (map_lookup_filter_None _ _ _)); [done|]. by left.
Qed.

End MemoryFacts.

(** ** The facade, whichever backend is behind it *)

Lemma peek_memory now id b : peek now id (Memory b) = InMemoryBackend.read id b.
Proof.
  unfold peek, InMemoryBackend.read. simpl.
  by destruct (InMemoryBackend.getJob id b).
Qed.

Lemma peek_durable now id b : healthy (Durable b) -> peek now id (Durable b) = held now id b.
Proof.
  intros [Hr Hc]. unfold peek. simpl. rewrite durable_getJob_eq by done.
  fold (held now id b). by destruct (held now id b).
Qed.

Lemma createJob_look q uuid t1 t2 i q' r :
  createJob uuid t1 t2 i q = Ok (q', r) -> look q' r = Some (new_job uuid t1 t2 i).
Proof.
  destruct q as [b|b]; simpl.
  - intros [= <- <-]. apply MemoryFacts.createJob_ref.
  - unfold BullMQBackend.createJob.
    destruct (BullMQBackend.ready b) as [[]|]; simpl; [|discriminate].
    destruct (Redis.set_ex _ _ _ _ _); simpl; [|discriminate].
    by intros [= <- <-].
Qed.

Lemma createJob_healthy q uuid t1 t2 i :
  healthy q -> exists q' r, createJob uuid t1 t2 i q = Ok (q', r) /\ healthy q'.
Proof.
  destruct q as [b|b]; simpl.
  - intros _. by eexists _, _.
  - intros [Hr Hc]. rewrite durable_createJob_eq by done. simpl.
    by eexists _, _.
Qed.

Lemma updateJob_healthy q now id patch :
  healthy q -> exists q', updateJob now id patch q = Ok q' /\ healthy q'.
Proof.
  destruct q as [b|b]; simpl.
  - intros _. by eexists.
  - intros [Hr Hc]. rewrite durable_updateJob_eq by done. simpl.
    eexists. split; [done|].
    by destruct (BullMQBackend.getJob now id b) as [[j|]|].
Qed.

Lemma getJob_healthy q now id : healthy q -> exists o, getJob now id q = Ok o.
Proof.
  destruct q as [b|b]; simpl.
  - intros _. by eexists.
  - intros [Hr Hc]. rewrite durable_getJob_eq by done. by eexists.
Qed.

Lemma step_healthy c q : healthy q -> healthy (step c q).1.
Proof.
  intros H. destruct c as [uuid t1 t2 i|now id|now id patch|now]; simpl.
  - destruct (createJob_healthy q uuid t1 t2 i H) as (q' & r & -> & H'). done.
  - by destruct (getJob now id q).
  - destruct (updateJob_healthy q now id patch H) as (q' & -> & H'). done.
  - by destruct q.
Qed.

Lemma run_cons c cs q :
  run (c :: cs) q = ((run cs (step c q).1).1, (c, (step c q).2) :: (run cs (step c q).1).2).
Proof. simpl. destruct (step c q) as [q1 a]. simpl. by destruct (run cs q1). Qed.

Lemma run_app cs1 cs2 q :
  run (cs1 ++ cs2) q
  = ((run cs2 (run cs1 q).1).1, ((run cs1 q).2 ++ (run cs2 (run cs1 q).1).2)%list).
Proof.
  revert q. induction cs1 as [|c cs1 IH]; intros q.
  - simpl. by destruct (run cs2 q).
  - rewrite <- app_comm_cons, !run_cons, IH. done.
Qed.

Lemma run_healthy cs q : healthy q -> healthy (run cs q).1.
Proof.
  revert q. induction cs as [|c cs IH]; intros q H; [done|].
  rewrite run_cons. simpl. by apply IH, step_healthy.
Qed.

(** A [createJob] call hands back a job whose id is the value drawn from
    [randomUUID()]. *)
Lemma step_created_id c q x :
  created_id (c, (step c q).2) = Some x -> uuid_of c = Some x.
Proof.
  destruct c as [uuid t1 t2 i|now id|now id patch|now]; simpl; try done.
  - destruct (createJob uuid t1 t2 i q) as [[q' r]|] eqn:Hc; simpl; [|done].
    rewrite (createJob_look _ _ _ _ _ _ _ Hc). simpl. done.
Qed.

Lemma run_log_elem cs q c a :
  (c, a) ∈ (run cs q).2 -> c ∈ cs /\ exists q1, a = (step c q1).2.
Proof.
  revert q. induction cs as [|c0 cs IH]; intros q.
  - simpl. by intros ?%elem_of_nil.
  - rewrite run_cons. cbn [snd]. intros [[= -> ->]|Hin]%elem_of_cons.
    + split; [by left|]. by eexists.
    + apply IH in Hin as [Hc Ha]. split; [by right|done].
Qed.

Lemma created_ids_drawn cs q x : x ∈ created_ids (run cs q).2 -> x ∈ uuids cs.
Proof.
  unfold created_ids, uuids. rewrite !list_elem_of_omap.
  intros ([c a] & Hin & Hx). apply run_log_elem in Hin as [Hc [q1 ->]].
  exists c. split; [done|]. by eapply step_created_id.
Qed.

(** ** C1: creation *)

Lemma getJob_after_createJob q uuid t1 t2 i q' r now :
  healthy q ->
  createJob uuid t1 t2 i q = Ok (q', r) ->
  (now < t2 + DAY_MS)%Z ->
  exists r', getJob now uuid q' = Ok (Some r') /\ look q' r' = Some (new_job uuid t1 t2 i).
Proof.
  destruct q as [b|b]; intros Hq Hc Hnow.
  - injection Hc as <- <-. exists (shared (length (InMemoryBackend.heap b))). split.
    + simpl. unfold InMemoryBackend.getJob. simpl. by rewrite lookup_insert_eq.
    + apply MemoryFacts.createJob_ref.
  - destruct Hq as [Hr Hcn]. simpl in Hc. rewrite durable_createJob_eq in Hc by done.
    injection Hc as <- <-. exists (owned (new_job uuid t1 t2 i)). split; [|done].
    simpl. rewrite durable_getJob_eq by done. simpl.
    rewrite lookup_insert_eq. simpl. unfold Redis.live. simpl.
    unfold DAY_MS, BullMQBackend.TTL_SECONDS in *.
    destruct (Z.ltb_spec now (t2 + 86400 * 1000)); [done|lia].
Qed.

(** C1, as the code has it.  On either backend (the durable store being
    reachable), after any session, [createJob] returns a record whose id is
    the value drawn from [randomUUID()], hence distinct from the id of every
    job created before as long as the generator has not repeated itself;
    its status is pending, it has neither result nor error, [createdAt] is
    the first clock reading of the call and [updatedAt] the second one; and
    the record is persisted: [getJob] with that id, called before the
    record's time to live is over, returns that very record, status
    pending. *)
Theorem createJob_returns_fresh_pending_job
    (cs : list call) (q0 : Queue) (uuid : string) (t1 t2 : Z) (i : JobInput) :
  healthy q0 ->
  uuid ∉ uuids cs ->
  exists q' r j,
    createJob uuid t1 t2 i (run cs q0).1 = Ok (q', r) /\
    look q' r = Some j /\
    job_id j = uuid /\
    (job_id j ∉ created_ids ((run cs q0).2)) /\
    job_status j = pending /\
    job_createdAt j = t1 /\
    job_updatedAt j = t2 /\
    job_input j = i /\
    job_result j = None /\
    job_error j = None /\
    forall now, (now < t2 + DAY_MS)%Z ->
      exists r', getJob now uuid q' = Ok (Some r') /\ look q' r' = Some j.
Proof.
  intros Hq0 Hfresh.
  pose proof (run_healthy cs q0 Hq0) as Hq.
  destruct (createJob_healthy _ uuid t1 t2 i Hq) as (q' & r & Hc & Hq').
  exists q', r, (new_job uuid t1 t2 i).
  split; [done|]. split; [by eapply createJob_look|].
  split; [done|]. split; [intros Hin%created_ids_drawn; by apply Hfresh|].
  do 6 (split; [done|]).
  intros now Hnow. exact (getJob_after_createJob _ _ _ _ _ _ _ _ Hq Hc Hnow).
Qed.

Lemma createJob_returns_fresh_pending_job_witness :
  exists q' r j,
    createJob "b" 20 21 eiffel (run [Create "a" 10 10 eiffel] (Memory InMemoryBackend.init)).1
    = Ok (q', r) /\
    look q' r = Some j /\
    job_id j = "b" /\
    job_status j = pending.
Proof.
  destruct (createJob_returns_fresh_pending_job
              [Create "a" 10 10 eiffel] (Memory InMemoryBackend.init) "b" 20 21 eiffel)
    as (q' & r & j & Hc & Hl & Hid & _ & Hst & _).
  - exact I.
  - unfold uuids. simpl. rewrite list_elem_of_In. simpl. intros [H|[]]. discriminate.
  - exists q', r, j. done.
Defined.

(** C1 as stated fails: when the clock moves on between the two
    [new Date()] of the job literal, [createdAt] and [updatedAt] differ, so
    they are not both the one creation time. *)
Lemma createJob_timestamps_differ :
  exists q' r j,
    createJob "a" 1000 1001 eiffel (Memory InMemoryBackend.init) = Ok (q', r) /\
    look q' r = Some j /\
    job_createdAt j <> job_updatedAt j.
Proof. eexists _, _, _. repeat split. done. Qed.

Lemma updateJob_unknown_id_is_noop_witness :
  updateJob 5 "nobody" (status_patch running None None) (Memory InMemoryBackend.init)
  = Ok (Memory InMemoryBackend.init) /\
  updateJob 5 "nobody" (status_patch running None None) durable_init = Ok durable_init /\
  exists msg,
    updateJob 5 "nobody" (status_patch running None None)
      (Durable (BullMQBackend.mk (Redis.mk ∅ false) (Ok tt) [])) = Threw msg.
Proof.
  split; [|split].
  - apply (updateJob_unknown_id_is_noop (Memory InMemoryBackend.init) 5 "nobody");
      [reflexivity|exact I].
  - apply (updateJob_unknown_id_is_noop durable_init 5 "nobody");
      [reflexivity|split; reflexivity].
  - apply (updateJob_unknown_id_is_noop
             (Durable (BullMQBackend.mk (Redis.mk ∅ false) (Ok tt) [])) 5 "nobody");
      [reflexivity|]. simpl. intros [_ H]. discriminate H.
Defined.

(** ** C7: expiry in the in-memory backend *)

Module ExpiryFacts.
Import InMemoryBackend MemoryFacts Expiry.



Lemma step_memory c b : (step c (Memory b)).1 = Memory (mstep c b).
Proof. by destruct c. Qed.

Lemma run_memory cs b : (run cs (Memory b)).1 = Memory (foldl (fun b c => mstep c b) b cs).
Proof.
  revert b. induction cs as [|c cs IH]; intros b; [done|].
  rewrite run_cons. cbn [fst]. by rewrite step_memory, IH.
Qed.

Lemma wf_mstep c b : wf b -> wf (mstep c b).
Proof.
  intros Hwf. destruct c as [u t1 t2 i|now id|now id patch|now].
  - by apply wf_createJob.
  - done.
  - by apply wf_updateJob.
  - by apply wf_sweep.
Qed.

Lemma wf_mrun cs b : wf b -> wf (foldl (fun b c => mstep c b) b cs).
Proof.
  revert b. induction cs as [|c cs IH]; intros b Hwf; [done|].
  simpl. by apply IH, wf_mstep.
Qed.

Lemma wf_reachable cs : wf (foldl (fun b c => mstep c b) init cs).
Proof. apply wf_mrun, wf_init. Qed.



Lemma mstep_gone uuid c b :
  wf b -> keeps uuid c -> read uuid b = None -> read uuid (mstep c b) = None.
Proof.
  intros Hwf Hk Hnone. destruct c as [u t1 t2 i|now id|now id patch|now];
    unfold mstep, keeps, by_then in *.
  - by rewrite read_createJob_ne.
  - done.
  - destruct (decide (id = uuid)) as [->|Hne].
    + by rewrite read_updateJob_eq, Hnone.
    + by rewrite read_updateJob_ne.
  - by rewrite read_sweep, Hnone.
Qed.

Lemma mstep_kept uuid c b j :
  wf b -> keeps uuid c -> read uuid b = Some j ->
  read uuid (mstep c b) = None \/
  exists j', read uuid (mstep c b) = Some j' /\ job_createdAt j' = job_createdAt j.
Proof.
  intros Hwf Hk Hj. destruct c as [u t1 t2 i|now id|now id patch|now];
    unfold mstep, keeps, by_then in *.
  - right. exists j. by rewrite read_createJob_ne.
  - right. by exists j.
  - right. destruct (decide (id = uuid)) as [->|Hne].
    + rewrite read_updateJob_eq, Hj. simpl. eexists. split; [done|].
      simpl. by rewrite Hk.
    + exists j. by rewrite read_updateJob_ne.
  - rewrite read_sweep, Hj. destruct (_ <? _)%Z; [by left|right; by exists j].
Qed.

Lemma mstep_alive uuid limit c b j :
  wf b -> keeps uuid c -> by_then limit c ->
  read uuid b = Some j -> (limit - RETENTION_MS <= job_createdAt j)%Z ->
  exists j', read uuid (mstep c b) = Some j' /\ job_createdAt j' = job_createdAt j.
Proof.
  intros Hwf Hk Hb Hj Hlim.
  destruct (mstep_kept uuid c b j Hwf Hk Hj) as [Hnone|?]; [|done].
  destruct c as [u t1 t2 i|now id|now id patch|now];
    unfold mstep, keeps, by_then in *.
  - by rewrite read_createJob_ne, Hj in Hnone.
  - by rewrite Hj in Hnone.
  - destruct (decide (id = uuid)) as [->|Hne].
    + by rewrite read_updateJob_eq, Hj in Hnone.
    + by rewrite read_updateJob_ne, Hj in Hnone.
  - rewrite read_sweep, Hj in Hnone.
    destruct (Z.ltb_spec (job_createdAt j) (now - RETENTION_MS)); [lia|done].
Qed.

Lemma mrun_gone uuid cs b :
  wf b -> Forall (keeps uuid) cs -> read uuid b = None ->
  read uuid (foldl (fun b c => mstep c b) b cs) = None.
Proof.
  intros Hwf Hk. revert b Hwf. induction Hk as [|c cs Hc Hcs IH]; intros b Hwf Hnone; [done|].
  simpl. apply IH; [by apply wf_mstep|by apply mstep_gone].
Qed.

Lemma mrun_kept uuid cs b j :
  wf b -> Forall (keeps uuid) cs -> read uuid b = Some j ->
  read uuid (foldl (fun b c => mstep c b) b cs) = None \/
  exists j', read uuid (foldl (fun b c => mstep c b) b cs) = Some j' /\
             job_createdAt j' = job_createdAt j.
Proof.
  intros Hwf Hk. revert b j Hwf.
  induction Hk as [|c cs Hc Hcs IH]; intros b j Hwf Hj; [right; by exists j|].
  simpl. destruct (mstep_kept uuid c b j Hwf Hc Hj) as [Hnone|(j' & Hj' & Hcr)].
  - left. apply mrun_gone; [by apply wf_mstep|done..].
  - rewrite <- Hcr. apply IH; [by apply wf_mstep|done].
Qed.

Lemma mrun_alive uuid limit cs b j :
  wf b -> Forall (keeps uuid) cs -> Forall (by_then limit) cs ->
  read uuid b = Some j -> (limit - RETENTION_MS <= job_createdAt j)%Z ->
  exists j', read uuid (foldl (fun b c => mstep c b) b cs) = Some j' /\
             job_createdAt j' = job_createdAt j.
Proof.
  intros Hwf Hk Hb. revert b j Hwf Hb.
  induction Hk as [|c cs Hc Hcs IH]; intros b j Hwf Hb Hj Hlim; [by exists j|].
  apply Forall_cons in Hb as [Hb1 Hb2]. simpl.
  destruct (mstep_alive uuid limit c b j Hwf Hc Hb1 Hj Hlim) as (j' & Hj' & Hcr).
  rewrite <- Hcr. apply IH; [by apply wf_mstep|done..|by rewrite Hcr].
Qed.

End ExpiryFacts.

(** C7. The timer of the in-memory backend is armed with a period of ten
    minutes, and each firing deletes exactly the records whose [createdAt]
    lies more than one hour back, whatever their status.  Hence a job
    created at [T] (its id not drawn again and its [createdAt] not patched)
    is still returned by [getJob] at [T] + 59 minutes, and is no longer
    returned once the timer has fired at some instant later than [T] + 60
    minutes, e.g. at [T] + 61 minutes. *)
Theorem in_memory_expiry
    (b : InMemoryBackend.t) (uuid : string) (T t2 : Z) (i : JobInput) (cs : list call) :
  InMemoryBackend.wf b ->
  Forall (Expiry.keeps uuid) cs ->
  let q1 := Memory (InMemoryBackend.createJob uuid T t2 i b).1 in
  SWEEP_INTERVAL_MS = (10 * 60000)%Z /\
  RETENTION_MS = (60 * 60000)%Z /\
  (forall t0 k, (Expiry.firing t0 (S k) - Expiry.firing t0 k)%Z = (10 * 60000)%Z) /\
  (forall now b' id,
     InMemoryBackend.read id (InMemoryBackend.sweep now b') =
     match InMemoryBackend.read id b' with
     | Some j => if (job_createdAt j <? now - 60 * 60000)%Z then None else Some j
     | None => None
     end) /\
  (Forall (Expiry.by_then (T + 59 * 60000)) cs ->
   exists j, peek (T + 59 * 60000) uuid (run cs q1).1 = Some j) /\
  (forall s cs2 now,
     (T + 60 * 60000 < s)%Z ->
     Forall (Expiry.keeps uuid) cs2 ->
     peek now uuid (run (cs ++ Tick s :: cs2) q1).1 = None).
Proof.
  intros Hwf Hk q1.
  assert (Hwf1 : InMemoryBackend.wf (InMemoryBackend.createJob uuid T t2 i b).1)
    by by apply MemoryFacts.wf_createJob.
  pose proof (MemoryFacts.read_createJob_eq uuid T t2 i b) as Hread.
  split; [done|]. split; [done|]. split.
  { intros t0 k. unfold Expiry.firing, SWEEP_INTERVAL_MS. lia. }
  split; [intros; apply MemoryFacts.read_sweep|]. split.
  - intros Hb. subst q1. rewrite ExpiryFacts.run_memory, peek_memory.
    destruct (ExpiryFacts.mrun_alive uuid (T + 59 * 60000) cs _ _ Hwf1 Hk Hb Hread) as (j & Hj & _).
    + simpl. unfold RETENTION_MS. lia.
    + by exists j.
  - intros s cs2 now Hs Hk2. subst q1.
    rewrite ExpiryFacts.run_memory, peek_memory, foldl_app. simpl.
    pose proof (ExpiryFacts.mrun_kept uuid cs _ _ Hwf1 Hk Hread) as Hkept.
    set (b2 := foldl _ _ cs) in *.
    assert (Hwf2 : InMemoryBackend.wf b2).
    { by apply ExpiryFacts.wf_mrun. }
    apply ExpiryFacts.mrun_gone; [by apply MemoryFacts.wf_sweep|done|].
    rewrite MemoryFacts.read_sweep.
    destruct Hkept as [Hnone|(j' & Hj' & Hcr)].
    + by rewrite Hnone.
    + rewrite Hj'. simpl in Hcr. rewrite Hcr. unfold RETENTION_MS.
      destruct (Z.ltb_spec T (s - 60 * 60 * 1000)); [done|lia].
Qed.

Lemma in_memory_expiry_witness :
  (exists j, peek (0 + 59 * 60000) "a"
       (run [Tick 600000; Put 700000 "a" (status_patch running None None); Tick 1200000]
            (Memory (InMemoryBackend.createJob "a" 0 0 eiffel InMemoryBackend.init).1)).1
     = Some j) /\
  peek (61 * 60000) "a"
       (run ([Tick 600000; Put 700000 "a" (status_patch running None None); Tick 1200000]
               ++ Tick (61 * 60000) :: [])
            (Memory (InMemoryBackend.createJob "a" 0 0 eiffel InMemoryBackend.init).1)).1
  = None.
Proof.
  assert (Hk : Forall (Expiry.keeps "a")
                 [Tick 600000; Put 700000 "a" (status_patch running None None); Tick 1200000]).
  { repeat constructor. }
  destruct (in_memory_expiry InMemoryBackend.init "a" 0 0 eiffel _ MemoryFacts.wf_init Hk)
    as (_ & _ & _ & _ & Halive & Hgone).
  split.
  - apply Halive. repeat constructor; simpl; lia.
  - apply Hgone; [lia|constructor].
Defined.

(** ** C8, C10: what [updateJob] does to a stored record *)

Lemma peek_Some_healthy now id q j : peek now id q = Some j -> healthy q.
Proof.
  destruct q as [b|b]; [done|]. unfold peek, healthy. simpl.
  unfold BullMQBackend.getJob, Redis.get.
  destruct (BullMQBackend.ready b) as [[]|]; simpl; [|done].
  destruct (Redis.connected (BullMQBackend.client b)); simpl; done.
Qed.

Lemma updateJob_peek (q : Queue) (now : Z) (id : string) (patch : JobPatch) (j : Job) :
  peek now id q = Some j ->
  exists q',
    updateJob now id patch q = Ok q' /\
    peek now id q' = Some (if written_back q id j then assign j patch now else j).
Proof.
  destruct q as [b|b]; intros Hj.
  - rewrite peek_memory in Hj. eexists. split; [done|].
    rewrite peek_memory, MemoryFacts.read_updateJob_eq, Hj. done.
  - pose proof (peek_Some_healthy _ _ _ _ Hj) as Hh.
    pose proof Hh as [Hr Hc].
    rewrite peek_durable in Hj by done.
    assert (Hget : BullMQBackend.getJob now id b = Ok (Some j)).
    { rewrite durable_getJob_eq by done. fold (held now id b). by rewrite Hj. }
    simpl. rewrite durable_updateJob_eq, Hget by done. simpl.
    eexists. split; [done|].
    rewrite peek_durable by done. unfold held. simpl.
    case_bool_decide as Hid.
    + rewrite Hid, lookup_insert_eq. simpl. unfold Redis.live. simpl.
      unfold BullMQBackend.TTL_SECONDS.
      destruct (Z.ltb_spec now (now + 86400 * 1000)); [done|lia].
    + rewrite lookup_insert_ne by (by apply key_ne). exact Hj.
Qed.

Lemma stored_as_peek uuid t1 i q now j :
  stored_as uuid t1 i q -> peek now uuid q = Some j -> job_createdAt j = t1 /\ job_input j = i.
Proof.
  destruct q as [b|b]; simpl; intros Hs Hj.
  - rewrite peek_memory in Hj. by apply Hs.
  - unfold peek in Hj. simpl in Hj. unfold BullMQBackend.getJob, Redis.get in Hj.
    destruct (BullMQBackend.ready b) as [[]|]; simpl in Hj; [|done].
    destruct (Redis.connected (BullMQBackend.client b)); simpl in Hj; [|done].
    destruct (Redis.kv (BullMQBackend.client b) !! BullMQBackend.key uuid)
      as [[v deadline]|] eqn:Hkv; simpl in Hj; [|done].
    unfold Redis.live in Hj. simpl in Hj. destruct (now <? deadline)%Z; simpl in Hj; [|done].
    destruct v as [j'|s]; simpl in Hj.
    + injection Hj as ->. by eapply Hs.
    + by destruct s.
Qed.

Lemma stored_as_createJob uuid t1 t2 i q q' r :
  createJob uuid t1 t2 i q = Ok (q', r) -> stored_as uuid t1 i q'.
Proof.
  destruct q as [b|b]; simpl.
  - intros [= <- <-]. intros j.
    change (InMemoryBackend.mk _ _) with (InMemoryBackend.createJob uuid t1 t2 i b).1.
    rewrite MemoryFacts.read_createJob_eq. by intros [= <-].
  - unfold BullMQBackend.createJob, Redis.set_ex.
    destruct (BullMQBackend.ready b) as [[]|]; simpl; [|done].
    destruct (Redis.connected (BullMQBackend.client b)); simpl; [|done].
    intros [= <- <-]. intros j deadline. simpl. rewrite lookup_insert_eq. by intros [= <- <-].
Qed.

Lemma stored_as_step uuid t1 i c q :
  spares uuid c -> stored_as uuid t1 i q -> stored_as uuid t1 i (step c q).1.
Proof.
  intros Hc Hs. destruct c as [u t1' t2' i'|now id|now id patch|now]; simpl in Hc.
  - done.
  - simpl. by destruct (getJob now id q).
  - destruct Hc as (-> & Hcr & Hin). simpl.
    destruct (updateJob now uuid patch q) as [q'|] eqn:Hu; [|done]. simpl.
    destruct q as [b|b]; simpl in Hu.
    + injection Hu as <-. intros j. rewrite MemoryFacts.read_updateJob_eq.
      destruct (InMemoryBackend.read uuid b) as [j0|] eqn:Hj0; [|done].
      intros [= <-]. simpl. rewrite Hcr, Hin. simpl. by apply Hs.
    + unfold BullMQBackend.updateJob in Hu.
      destruct (BullMQBackend.ready b) as [[]|]; simpl in Hu; [|done].
      destruct (BullMQBackend.getJob now uuid b) as [[j0|]|] eqn:Hget; simpl in Hu;
        [|by injection Hu as <-|done].
      unfold Redis.set_ex in Hu.
      destruct (Redis.connected (BullMQBackend.client b)); simpl in Hu; [|done].
      injection Hu as <-. intros j deadline. simpl.
      assert (Hj0 : job_createdAt j0 = t1 /\ job_input j0 = i).
      { apply (stored_as_peek uuid t1 i (Durable b) now); [done|].
        unfold peek. simpl. by rewrite Hget. }
      destruct (decide (job_id j0 = uuid)) as [->|Hne].
      * rewrite lookup_insert_eq. intros [= <- <-]. simpl. by rewrite Hcr, Hin.
      * rewrite lookup_insert_ne by (by apply key_ne). apply Hs.
  - destruct q as [b|b]; simpl; [|done].
    intros j. rewrite MemoryFacts.read_sweep.
    destruct (InMemoryBackend.read uuid b) as [j0|] eqn:Hj0; [|done].
    destruct (_ <? _)%Z; [done|]. intros [= <-]. by apply Hs.
Qed.

Lemma stored_as_run uuid t1 i cs q :
  Forall (spares uuid) cs -> stored_as uuid t1 i q -> stored_as uuid t1 i (run cs q).1.
Proof.
  intros Hcs. revert q. induction Hcs as [|c cs Hc Hcs IH]; intros q Hs; [done|].
  rewrite run_cons. cbn [fst]. by apply IH, stored_as_step.
Qed.

(** C8, as the code has it.  [updateJob] on a stored job resolves, and in
    the record then found under the id every field other than [updatedAt]
    that the patch does not carry has the value it had before the call; a
    field the patch carries, [createdAt] and [input] included, is replaced.
    So, on either backend, after any series of [getJob] calls, timer
    firings and [updateJob] calls on a job whose patches carry neither
    [createdAt] nor [input], the record found under its id still has the
    [createdAt] and the [input] it was created with. *)
Theorem updateJob_changes_only_patched_fields :
  (forall (q : Queue) (now : Z) (id : string) (patch : JobPatch) (j : Job),
     peek now id q = Some j ->
     exists q' j',
       updateJob now id patch q = Ok q' /\
       peek now id q' = Some j' /\
       (p_id patch = None -> job_id j' = job_id j) /\
       (p_status patch = None -> job_status j' = job_status j) /\
       (p_createdAt patch = None -> job_createdAt j' = job_createdAt j) /\
       (p_input patch = None -> job_input j' = job_input j) /\
       (p_result patch = None -> job_result j' = job_result j) /\
       (p_error patch = None -> job_error j' = job_error j)) /\
  (forall (q q1 : Queue) (uuid : string) (t1 t2 : Z) (i : JobInput) (r : jobref)
          (cs : list call) (now : Z) (j : Job),
     createJob uuid t1 t2 i q = Ok (q1, r) ->
     Forall (spares uuid) cs ->
     peek now uuid (run cs q1).1 = Some j ->
     job_createdAt j = t1 /\ job_input j = i).
Proof.
  split.
  - intros q now id patch j Hj.
    destruct (updateJob_peek q now id patch j Hj) as (q' & Hu & Hp).
    exists q'. eexists. split; [done|]. split; [done|].
    destruct (written_back q id j); [|done].
    simpl. repeat split; by intros ->.
  - intros q q1 uuid t1 t2 i r cs now j Hc Hcs Hj.
    eapply stored_as_peek; [|done].
    by eapply stored_as_run, stored_as_createJob.
Qed.

Lemma updateJob_changes_only_patched_fields_witness :
  (exists q' j',
     updateJob 2000 "a" (status_patch running None None)
       (Memory (InMemoryBackend.createJob "a" 1000 1000 eiffel InMemoryBackend.init).1) = Ok q' /\
     peek 2000 "a" q' = Some j' /\
     job_createdAt j' = 1000%Z /\ job_input j' = eiffel) /\
  (forall now j,
     peek now "a"
       (run [Put 2000 "a" (status_patch running None None);
             Put 3000 "a" (status_patch done (Some "ok") None)]
            (Durable (BullMQBackend.mk
               (Redis.mk {[ BullMQBackend.key "a" :=
                              (json_of (new_job "a" 1000 1000 eiffel), (1000 + 86400 * 1000)%Z) ]}
                         true)
               (Ok tt) []))).1 = Some j ->
     job_createdAt j = 1000%Z /\ job_input j = eiffel).
Proof.
  destruct updateJob_changes_only_patched_fields as [Hstep Hrun]. split.
  - destruct (Hstep (Memory (InMemoryBackend.createJob "a" 1000 1000 eiffel InMemoryBackend.init).1)
                2000%Z "a" (status_patch running None None) (new_job "a" 1000 1000 eiffel))
      as (q' & j' & Hu & Hp & _ & _ & Hcr & Hin & _).
    + reflexivity.
    + exists q', j'. split; [done|]. split; [done|]. split; [by apply Hcr|by apply Hin].
  - intros now j. apply (Hrun durable_init _ "a" 1000%Z 1000%Z eiffel
                           (owned (new_job "a" 1000 1000 eiffel))).
    + unfold durable_init. simpl. unfold BullMQBackend.createJob, Redis.set_ex. simpl.
      by rewrite insert_empty.
    + repeat constructor.
Defined.

(** C8 as stated fails: a patch may carry [createdAt], and then the stored
    [createdAt] is no longer the one of creation. *)
Lemma updateJob_overwrites_createdAt :
  exists q1 r q2 j,
    createJob "a" 1000 1000 eiffel (Memory InMemoryBackend.init) = Ok (q1, r) /\
    updateJob 2000 "a" (mkPatch None None (Some 5%Z) None None None None) q1 = Ok q2 /\
    peek 2000 "a" q2 = Some j /\
    job_createdAt j <> 1000%Z.
Proof. eexists _, _, _, _. repeat split. done. Qed.

(** The part of C10 that the code keeps: when [updateJob] writes the record
    back under the id it was called with, [updatedAt] is the clock reading
    of the call, whatever [updatedAt] the patch carries. *)
Lemma updateJob_sets_updatedAt (q : Queue) (now : Z) (id : string) (patch : JobPatch) (j : Job) :
  peek now id q = Some j ->
  written_back q id j = true ->
  exists q' j',
    updateJob now id patch q = Ok q' /\ peek now id q' = Some j' /\ job_updatedAt j' = now.
Proof.
  intros Hj Hw. destruct (updateJob_peek q now id patch j Hj) as (q' & Hu & Hp).
  rewrite Hw in Hp. by exists q', (assign j patch now).
Qed.

(** C10 on the durable backend.  Once a patch has rewritten the [id] field
    of the record stored under "a", a further [updateJob] on "a" at 3000
    writes the merged record under the key of the rewritten id: the record
    found under "a" keeps the [updatedAt] of the earlier call, and a record
    appears under "b".  The in-memory backend, given the same calls, sets
    [updatedAt] to 3000. *)
Lemma durable_updateJob_leaves_updatedAt_stale :
  let rename := mkPatch (Some "b") None None None None None None in
  let cs := [Create "a" 1000 1000 eiffel; Put 2000 "a" rename; Put 3000 "a" empty_patch] in
  (job_updatedAt <$> peek 3000 "a" (run cs durable_init).1) = Some 2000%Z /\
  (job_updatedAt <$> peek 3000 "b" (run cs durable_init).1) = Some 3000%Z /\
  (job_updatedAt <$> peek 3000 "a" (run cs (Memory InMemoryBackend.init)).1) = Some 3000%Z /\
  peek 3000 "b" (run cs (Memory InMemoryBackend.init)).1 = None.
Proof. vm_compute. done. Qed.

(** ** The runner, step by step *)

Lemma pushWebhook_spec e url payload w :
  pushWebhook e url payload w
  = (Ok tt, {| queue := queue w; history := history w ++ push_log e url payload (queue w) |}).
Proof.
  unfold pushWebhook, try_catch, bind, await_fetch, console_warn, ret, emit, push_log.
  fold (webhook_request url payload).
  destruct (fetch_settles e) as [code|err]; simpl; [done|].
  by rewrite <- app_assoc.
Qed.

Lemma notify_spec e callbackUrl payload w :
  notify e callbackUrl payload w
  = (Ok tt, {| queue := queue w;
               history := history w ++ notify_log e callbackUrl payload (queue w) |}).
Proof.
  unfold notify, notify_log. destruct callbackUrl as [url|].
  - destruct (truthy (Some url)); [apply pushWebhook_spec|].
    unfold ret. rewrite app_nil_r. by destruct w.
  - unfold ret. rewrite app_nil_r. by destruct w.
Qed.

(** A run in which both writes get through. *)
Lemma runJob_spec e jobId output question tier keys callbackUrl w q1 q2 :
  updateJob (now_running e) jobId (status_patch running None None) (queue w) = Ok q1 ->
  updateJob (terminal_now e) jobId (terminal_patch e) (run (meanwhile e) q1).1 = Ok q2 ->
  runJob e jobId output question tier keys callbackUrl w
  = (Ok tt,
     {| queue := q2;
        history :=
          history w
          ++ [(Update (now_running e) jobId (status_patch running None None), q1);
              (Verify output tier keys question, (run (meanwhile e) q1).1);
              (Update (terminal_now e) jobId (terminal_patch e), q2)]
          ++ notify_log e callbackUrl (terminal_payload e jobId) q2 |}).
Proof.
  intros H1 H2.
  unfold runJob, bind, try_catch, await_updateJob, await_verify, emit.
  rewrite H1. cbn [queue history].
  unfold terminal_now, terminal_patch, terminal_payload in *.
  destruct (verify_settles e) as [result|err]; cbn [queue history].
  - rewrite H2. cbn [queue history]. rewrite notify_spec. cbn [queue history].
    by rewrite <- !app_assoc.
  - rewrite H2. cbn [queue history]. rewrite notify_spec. cbn [queue history].
    by rewrite <- !app_assoc.
Qed.

(** ** The life of one job: created, then run *)

Lemma peek_createJob q uuid t1 t2 i q1 r t :
  healthy q ->
  createJob uuid t1 t2 i q = Ok (q1, r) ->
  (t < t2 + DAY_MS)%Z ->
  peek t uuid q1 = Some (new_job uuid t1 t2 i).
Proof.
  intros Hq Hc Ht.
  destruct (getJob_after_createJob _ _ _ _ _ _ _ _ Hq Hc Ht) as (r' & Hg & Hl).
  unfold peek. by rewrite Hg.
Qed.

Lemma updateJob_peek_at (q : Queue) (now : Z) (id : string) (patch : JobPatch) (j : Job) (t : Z) :
  peek now id q = Some j ->
  written_back q id j = true ->
  (t < now + DAY_MS)%Z ->
  exists q',
    updateJob now id patch q = Ok q' /\ healthy q' /\
    peek t id q' = Some (assign j patch now).
Proof.
  destruct q as [b|b]; intros Hj Hw Ht.
  - rewrite peek_memory in Hj. eexists. split; [done|]. split; [done|].
    rewrite peek_memory, MemoryFacts.read_updateJob_eq, Hj. done.
  - pose proof (peek_Some_healthy _ _ _ _ Hj) as Hh.
    pose proof Hh as [Hr Hc].
    rewrite peek_durable in Hj by done.
    assert (Hget : BullMQBackend.getJob now id b = Ok (Some j)).
    { rewrite durable_getJob_eq by done. fold (held now id b). by rewrite Hj. }
    simpl. rewrite durable_updateJob_eq, Hget by done. simpl.
    eexists. split; [done|]. split; [done|].
    rewrite peek_durable by done. unfold held. simpl.
    simpl in Hw. apply bool_decide_eq_true in Hw.
    rewrite Hw, lookup_insert_eq. simpl. unfold Redis.live. simpl.
    unfold BullMQBackend.TTL_SECONDS, DAY_MS in *.
    destruct (Z.ltb_spec t (now + 86400 * 1000)); [done|lia].
Qed.

Lemma written_back_own_id q j : written_back q (job_id j) j = true.
Proof. destruct q; simpl; [done|]. by apply bool_decide_eq_true. Qed.

(** *** What the other requests do meanwhile *)

Lemma tidy_createJob q uuid t1 t2 i q' r :
  tidy q -> createJob uuid t1 t2 i q = Ok (q', r) -> tidy q'.
Proof.
  destruct q as [b|b]; simpl.
  - intros Hwf [= <- <-]. by apply (MemoryFacts.wf_createJob uuid t1 t2 i b).
  - intros Ht. unfold BullMQBackend.createJob, Redis.set_ex.
    destruct (BullMQBackend.ready b) as [[]|]; simpl; [|done].
    destruct (Redis.connected (BullMQBackend.client b)); simpl; [|done].
    intros [= <- <-]. intros id j deadline. simpl.
    destruct (decide (id = uuid)) as [->|Hne].
    + rewrite lookup_insert_eq. by intros [= <- <-].
    + rewrite lookup_insert_ne by (by apply key_ne). apply Ht.
Qed.

Lemma tidy_updateJob q now id patch q' :
  tidy q -> p_id patch = None -> updateJob now id patch q = Ok q' -> tidy q'.
Proof.
  destruct q as [b|b]; simpl.
  - intros Hwf _ [= <-]. by apply MemoryFacts.wf_updateJob.
  - intros Ht Hp. unfold BullMQBackend.updateJob.
    destruct (BullMQBackend.ready b) as [[]|] eqn:Hr; simpl; [|done].
    destruct (BullMQBackend.getJob now id b) as [[j0|]|] eqn:Hget; simpl;
      [|by intros [= <-]|done].
    unfold Redis.set_ex.
    destruct (Redis.connected (BullMQBackend.client b)) eqn:Hc; simpl; [|done].
    intros [= <-]. intros id' j deadline. simpl.
    assert (Hid : job_id j0 = id).
    { rewrite durable_getJob_eq in Hget by done.
      destruct (Redis.kv (BullMQBackend.client b) !! BullMQBackend.key id)
        as [[v d]|] eqn:Hkv; simpl in Hget; [|done].
      unfold Redis.live in Hget. simpl in Hget. destruct (now <? d)%Z; simpl in Hget; [|done].
      destruct v as [j1|]; [|done]. injection Hget as ->. by eapply Ht. }
    rewrite Hid. destruct (decide (id' = id)) as [->|Hne].
    + rewrite lookup_insert_eq. intros [= <- <-]. simpl. by rewrite Hp.
    + rewrite lookup_insert_ne by (by apply key_ne). apply Ht.
Qed.

Lemma foreign_step uuid limit c q :
  tidy q -> healthy q -> foreign uuid limit c ->
  (forall t j, peek t uuid q = Some j -> (limit - RETENTION_MS <= job_createdAt j)%Z) ->
  tidy (step c q).1 /\ healthy (step c q).1 /\
  forall t, peek t uuid (step c q).1 = peek t uuid q.
Proof.
  intros Ht Hq Hc Hold. split; [|split; [by apply step_healthy|]].
  - destruct c as [u t1 t2 i|now id|now id patch|now]; simpl in *.
    + destruct (createJob u t1 t2 i q) as [[q' r]|] eqn:Hcr; [|done].
      by eapply tidy_createJob.
    + by destruct (getJob now id q).
    + destruct (updateJob now id patch q) as [q'|] eqn:Hu; [|done].
      destruct Hc as [_ Hp]. by eapply tidy_updateJob.
    + destruct q as [b|b]; [|done]. by apply MemoryFacts.wf_sweep.
  - intros t. destruct q as [b|b].
    + rewrite ExpiryFacts.step_memory, !peek_memory.
      destruct c as [u t1 t2 i|now id|now id patch|now]; simpl in *.
      * change (InMemoryBackend.mk _ _) with (InMemoryBackend.createJob u t1 t2 i b).1.
        by rewrite MemoryFacts.read_createJob_ne.
      * done.
      * destruct Hc as [Hne _]. by rewrite MemoryFacts.read_updateJob_ne.
      * rewrite MemoryFacts.read_sweep.
        destruct (InMemoryBackend.read uuid b) as [j|] eqn:Hj; [|done].
        specialize (Hold t j). rewrite peek_memory in Hold. specialize (Hold Hj).
        destruct (Z.ltb_spec (job_createdAt j) (now - RETENTION_MS)); [lia|done].
    + pose proof Hq as [Hr Hcn].
      pose proof (step_healthy c _ Hq) as Hq'.
      destruct c as [u t1 t2 i|now id|now id patch|now]; simpl in Hq' |- *.
      * rewrite durable_createJob_eq in Hq' |- * by done. simpl in Hq' |- *.
        rewrite !peek_durable by done. unfold held. simpl.
        by rewrite lookup_insert_ne by (by apply key_ne).
      * by destruct (BullMQBackend.getJob now id b).
      * destruct Hc as [Hne Hp].
        rewrite durable_updateJob_eq in Hq' |- * by done. simpl in Hq' |- *.
        destruct (BullMQBackend.getJob now id b) as [[j0|]|] eqn:Hget; try done.
        assert (Hid : job_id j0 = id).
        { rewrite durable_getJob_eq in Hget by done.
          destruct (Redis.kv (BullMQBackend.client b) !! BullMQBackend.key id)
            as [[v d]|] eqn:Hkv; simpl in Hget; [|done].
          unfold Redis.live in Hget. simpl in Hget.
          destruct (now <? d)%Z; simpl in Hget; [|done].
          destruct v as [j1|]; [|done]. injection Hget as ->. by eapply Ht. }
        rewrite !peek_durable by done. unfold held. simpl.
        by rewrite Hid, lookup_insert_ne by (by apply key_ne).
      * done.
Qed.

Lemma foreign_run uuid limit cs q :
  tidy q -> healthy q -> Forall (foreign uuid limit) cs ->
  (forall t j, peek t uuid q = Some j -> (limit - RETENTION_MS <= job_createdAt j)%Z) ->
  tidy (run cs q).1 /\ healthy (run cs q).1 /\
  forall t, peek t uuid (run cs q).1 = peek t uuid q.
Proof.
  intros Ht Hq Hcs. revert q Ht Hq.
  induction Hcs as [|c cs Hc Hcs IH]; intros q Ht Hq Hold; [done|].
  rewrite run_cons. cbn [fst].
  destruct (foreign_step uuid limit c q Ht Hq Hc Hold) as (Ht1 & Hq1 & Hp1).
  destruct (IH _ Ht1 Hq1) as (Ht2 & Hq2 & Hp2).
  { intros t j. rewrite Hp1. apply Hold. }
  split; [done|]. split; [done|]. intros t. by rewrite Hp2, Hp1.
Qed.

Section lifecycle.
Variables (q : Queue) (uuid : string) (t1 t2 : Z) (i : JobInput).
Variables (e : Env) (output question : string) (tier : Tier).
Variables (keys : list (string * string)) (cb : option string).
Variables (lo poll : Z).
Hypothesis Hq : healthy q.
Hypothesis Htidy : tidy q.
Hypothesis Ht2 : within lo t2.
Hypothesis Hrun : within lo (now_running e).
Hypothesis Hdone : within lo (now_done e).
Hypothesis Herr : within lo (now_error e).
Hypothesis Hpoll : within lo poll.
Hypothesis Hothers : Forall (foreign uuid (t1 + RETENTION_MS)) (meanwhile e).

Lemma lifecycle :
  exists q1 r q2 q3,
    createJob uuid t1 t2 i q = Ok (q1, r) /\
    peek poll uuid q1 = Some (as_created uuid t1 t2 i) /\
    runJob e uuid output question tier keys cb (start q1)
    = (Ok tt,
       {| queue := q3;
          history :=
            [(Update (now_running e) uuid (status_patch running None None), q2);
             (Verify output tier keys question, (run (meanwhile e) q2).1);
             (Update (terminal_now e) uuid (terminal_patch e), q3)]
            ++ notify_log e cb (terminal_payload e uuid) q3 |}) /\
    peek poll uuid q2 = Some (as_running e (as_created uuid t1 t2 i)) /\
    peek poll uuid (run (meanwhile e) q2).1 = Some (as_running e (as_created uuid t1 t2 i)) /\
    peek poll uuid q3 = Some (as_settled e (as_created uuid t1 t2 i)).
Proof.
  assert (Hterm : within lo (terminal_now e)).
  { unfold terminal_now. by destruct (verify_settles e). }
  unfold within in *.
  destruct (createJob_healthy q uuid t1 t2 i Hq) as (q1 & r & Hc & Hq1).
  pose proof (tidy_createJob _ _ _ _ _ _ _ Htidy Hc) as Ht1.
  pose proof (peek_createJob _ _ _ _ _ _ _ (now_running e) Hq Hc ltac:(lia)) as Hp1.
  destruct (updateJob_peek_at q1 (now_running e) uuid (status_patch running None None)
              _ (terminal_now e) Hp1 (written_back_own_id _ _) ltac:(lia))
    as (q2 & Hu2 & Hq2 & Hp2).
  destruct (updateJob_peek_at q1 (now_running e) uuid (status_patch running None None)
              _ poll Hp1 (written_back_own_id _ _) ltac:(lia))
    as (q2' & Hu2' & _ & Hp2').
  rewrite Hu2 in Hu2'. injection Hu2' as <-.
  pose proof (tidy_updateJob q1 (now_running e) uuid (status_patch running None None) q2
                Ht1 eq_refl Hu2) as Ht2'.
  destruct (foreign_run uuid (t1 + RETENTION_MS) (meanwhile e) q2 Ht2' Hq2 Hothers)
    as (_ & _ & Hsame).
  { pose proof (stored_as_createJob _ _ _ _ _ _ _ Hc) as Hs1.
    pose proof (stored_as_step uuid t1 i
                  (Put (now_running e) uuid (status_patch running None None)) q1
                  (conj eq_refl (conj eq_refl eq_refl)) Hs1) as Hs2.
    simpl in Hs2. rewrite Hu2 in Hs2.
    intros t j Hj. destruct (stored_as_peek _ _ _ _ _ _ Hs2 Hj) as [-> _]. lia. }
  rewrite <- (Hsame (terminal_now e)) in Hp2.
  destruct (updateJob_peek_at (run (meanwhile e) q2).1 (terminal_now e) uuid (terminal_patch e)
              _ poll Hp2 (written_back_own_id _ (as_running e (as_created uuid t1 t2 i)))
              ltac:(lia))
    as (q3 & Hu3 & Hq3 & Hp3).
  exists q1, r, q2, q3. split; [done|]. split.
  { apply (peek_createJob q _ _ _ _ _ r); [done..|lia]. }
  split; [by rewrite (runJob_spec _ _ _ _ _ _ _ _ q2 q3)|].
  split; [done|]. split; [by rewrite Hsame|done].
Qed.
End lifecycle.

Lemma notify_log_quiet e cb payload q : Forall quiet (notify_log e cb payload q).*1.
Proof.
  unfold notify_log, push_log. destruct cb as [url|]; [|constructor].
  destruct (truthy (Some url)); [|constructor].
  destruct (fetch_settles e); repeat constructor.
Qed.

Lemma notify_log_queue e cb payload q x : x ∈ notify_log e cb payload q -> x.2 = q.
Proof.
  unfold notify_log, push_log. destruct cb as [url|]; [|by intros ?%elem_of_nil].
  destruct (truthy (Some url)); [|by intros ?%elem_of_nil].
  destruct (fetch_settles e).
  - intros H%list_elem_of_singleton. by subst.
  - intros [->|H%list_elem_of_singleton]%elem_of_cons; by subst.
Qed.

Lemma terminal_patch_status e : p_status (terminal_patch e) = Some (terminal_status e).
Proof. unfold terminal_patch, terminal_status. by destruct (verify_settles e). Qed.

(** ** The asynchronous endpoint *)

(** A request without [output] or [question], or without the mandatory
    credential, is answered at once and never reaches the queue. *)
Lemma verify_async_rejects process_env uuid t1 t2 e req w :
  truthy (b_output req) = false \/ truthy (b_question req) = false \/
  truthy (anthropic (resolveKeys (b_apiKeys req) process_env)) = false ->
  exists message, verify_async process_env uuid t1 t2 e req w = (Ok (BadRequest message), w).
Proof.
  unfold verify_async, validateConfig.
  destruct (b_output req) as [o|], (b_question req) as [qn|]; try by eexists.
  destruct (truthy (Some o)), (truthy (Some qn)); simpl; try by eexists.
  intros [?|[?|Hk]]; try done. rewrite Hk. by eexists.
Qed.


(** The poll endpoint answers 404 exactly when [getJob] finds nothing. *)
Lemma poll_not_found now id q :
  peek now id q = None -> healthy q -> exists message, poll now id q = Ok (NotFound message).
Proof.
  intros Hp Hq. unfold poll, peek in *.
  destruct (getJob_healthy q now id Hq) as [o Ho]. rewrite Ho in *.
  destruct o as [r|]; [|by eexists]. rewrite Hp. by eexists.
Qed.

(** ** C2: the order of the transitions *)

(** C2.  A job is created on a queue whose store is reachable and the
    runner is started on it, all within one day; while the runner waits
    for the verification, other requests are served and the timer may fire
    (no later than one hour after the creation).  Then the run resolves and
    its effects are, in this order: the write of status running, the
    verification call, one write of a terminal status (done when the call
    resolved, error when it rejected), and after that nothing but the
    webhook request and its warning.  A poller sees pending after the
    creation, running after the first write and when the verification call
    is over, and the terminal status from the terminal write on. *)
Theorem runJob_orders_transitions
    (q : Queue) (uuid : string) (t1 t2 : Z) (i : JobInput) (e : Env)
    (output question : string) (tier : Tier) (keys : list (string * string))
    (cb : option string) (lo poll : Z) :
  healthy q -> tidy q ->
  within lo t2 -> within lo (now_running e) -> within lo (now_done e) ->
  within lo (now_error e) -> within lo poll ->
  Forall (foreign uuid (t1 + RETENTION_MS)) (meanwhile e) ->
  exists q1 r w tail,
    createJob uuid t1 t2 i q = Ok (q1, r) /\
    (job_status <$> peek poll uuid q1) = Some pending /\
    runJob e uuid output question tier keys cb (start q1) = (Ok tt, w) /\
    effects w = Update (now_running e) uuid (status_patch running None None)
                :: Verify output tier keys question
                :: Update (terminal_now e) uuid (terminal_patch e)
                :: tail /\
    p_status (terminal_patch e) = Some (terminal_status e) /\
    (terminal_status e = done /\ (exists res, verify_settles e = Ok res) \/
     terminal_status e = error /\ (exists err, verify_settles e = Threw err)) /\
    Forall quiet tail /\
    seen poll uuid (history w)
    = Some running :: Some running :: Some (terminal_status e)
      :: ((fun _ => Some (terminal_status e)) <$> tail).
Proof.
  intros Hq Htidy Ht2 Hrun Hdone Herr Hpoll Hothers.
  destruct (lifecycle q uuid t1 t2 i e output question tier keys cb lo poll
              Hq Htidy Ht2 Hrun Hdone Herr Hpoll Hothers)
    as (q1 & r & q2 & q3 & Hc & Hp1 & Hr & Hp2 & Hp2m & Hp3).
  exists q1, r. eexists. exists (notify_log e cb (terminal_payload e uuid) q3).*1.
  split; [done|]. split; [by rewrite Hp1|]. split; [exact Hr|].
  split; [unfold effects; simpl; done|].
  split; [apply terminal_patch_status|].
  split.
  { unfold terminal_status. destruct (verify_settles e); [left|right]; eauto. }
  split; [apply notify_log_quiet|].
  unfold seen. cbn [history]. rewrite fmap_app. cbn [fmap list_fmap snd].
  rewrite Hp2, Hp2m, Hp3. cbn [fmap option_fmap option_map].
  simpl. rewrite terminal_patch_status. simpl. do 3 f_equal.
  rewrite <- list_fmap_compose. apply list_fmap_ext.
  intros k x Hx%list_elem_of_lookup_2%notify_log_queue. simpl. rewrite Hx, Hp3.
  simpl. by rewrite terminal_patch_status.
Qed.

Lemma runJob_orders_transitions_witness :
  exists q1 r w,
    createJob "a" 1000 1000 eiffel (Memory InMemoryBackend.init) = Ok (q1, r) /\
    runJob busy_env "a" "o" "q" basic [] (Some "http://cb") (start q1) = (Ok tt, w) /\
    seen 4000 "a" (history w) = [Some running; Some running; Some done; Some done; Some done].
Proof.
  destruct (runJob_orders_transitions (Memory InMemoryBackend.init) "a" 1000 1000 eiffel
              busy_env "o" "q" basic [] (Some "http://cb") 1000 4000)
    as (q1 & r & w & tail & Hc & _ & Hr & Heff & _ & _ & _ & Hseen);
    [exact I|apply MemoryFacts.wf_init|unfold within, DAY_MS; simpl; lia..| |].
  { unfold busy_env, RETENTION_MS. simpl.
    repeat apply Forall_cons_2; try apply Forall_nil; simpl; try done; lia. }
  exists q1, r, w. split; [done|]. split; [done|].
  rewrite Hseen. clear Hseen.
  simpl in Hc. injection Hc as <- <-.
  vm_compute in Hr. injection Hr as <-. vm_compute in Heff. injection Heff as <-.
  reflexivity.
Defined.

(** ** C3: result and error against status *)

(** C3.  Under the same conditions, the record of the job is in step with
    its status at every point of its life: as created, and after each
    effect of the run, [result] is present exactly when the status is done
    and [error] exactly when it is error, so neither is present while the
    job is pending or running. *)
Theorem lifecycle_keeps_result_and_error_in_step
    (q : Queue) (uuid : string) (t1 t2 : Z) (i : JobInput) (e : Env)
    (output question : string) (tier : Tier) (keys : list (string * string))
    (cb : option string) (lo poll : Z) :
  healthy q -> tidy q ->
  within lo t2 -> within lo (now_running e) -> within lo (now_done e) ->
  within lo (now_error e) -> within lo poll ->
  Forall (foreign uuid (t1 + RETENTION_MS)) (meanwhile e) ->
  exists q1 r w,
    createJob uuid t1 t2 i q = Ok (q1, r) /\
    runJob e uuid output question tier keys cb (start q1) = (Ok tt, w) /\
    (exists j, peek poll uuid q1 = Some j /\ in_step j) /\
    Forall (fun x => exists j, peek poll uuid x.2 = Some j /\ in_step j) (history w).
Proof.
  intros Hq Htidy Ht2 Hrun Hdone Herr Hpoll Hothers.
  destruct (lifecycle q uuid t1 t2 i e output question tier keys cb lo poll
              Hq Htidy Ht2 Hrun Hdone Herr Hpoll Hothers)
    as (q1 & r & q2 & q3 & Hc & Hp1 & Hr & Hp2 & Hp2m & Hp3).
  assert (H0 : in_step (as_created uuid t1 t2 i)).
  { split; simpl; split; try done; by intros []. }
  assert (H1 : in_step (as_running e (as_created uuid t1 t2 i))).
  { split; simpl; split; try done; by intros []. }
  assert (H2 : in_step (as_settled e (as_created uuid t1 t2 i))).
  { unfold as_settled, terminal_patch. destruct (verify_settles e); split; simpl; split;
      try done; try (by intros []); by eexists. }
  exists q1, r. eexists. split; [done|]. split; [exact Hr|].
  split; [by eexists|].
  cbn [history]. apply Forall_app. split.
  - repeat constructor; simpl; by eexists.
  - apply Forall_forall. intros x Hx%notify_log_queue. rewrite Hx. by eexists.
Qed.

Lemma lifecycle_keeps_result_and_error_in_step_witness :
  exists q1 r w,
    createJob "a" 1000 1000 eiffel durable_init = Ok (q1, r) /\
    runJob busy_env "a" "o" "q" basic [] None (start q1) = (Ok tt, w) /\
    Forall (fun x => exists j, peek 4000 "a" x.2 = Some j /\ in_step j) (history w).
Proof.
  destruct (lifecycle_keeps_result_and_error_in_step durable_init "a" 1000 1000 eiffel
              busy_env "o" "q" basic [] None 1000 4000)
    as (q1 & r & w & Hc & Hr & _ & Hall);
    [by split| |unfold within, DAY_MS; simpl; lia..| |].
  { intros id j deadline. simpl. by rewrite lookup_empty. }
  { unfold busy_env, RETENTION_MS. simpl.
    repeat apply Forall_cons_2; try apply Forall_nil; simpl; try done; lia. }
  by exists q1, r, w.
Defined.

(** ** C5: the webhook *)

Ltac pick_entry H :=
  repeat (apply elem_of_cons in H as [H|H]; [try discriminate H|]);
  try (apply elem_of_nil in H; destruct H).

Ltac run_step :=
  cbn [queue history fst snd];
  rewrite ?notify_spec; cbn [queue history fst snd];
  rewrite <- ?app_assoc; cbn [app].

(** What a call of [updateJob] that returned has done: it has merged the
    patch into the job it found under the id, and it has changed nothing
    when it found none. *)
Lemma updateJob_outcome q now id patch q' :
  updateJob now id patch q = Ok q' ->
  match peek now id q with
  | Some j =>
      written_back q id j = true ->
      forall t, (t < now + DAY_MS)%Z -> peek t id q' = Some (assign j patch now)
  | None => q' = q
  end.
Proof.
  intros Hu. destruct (peek now id q) as [j|] eqn:Hj.
  - intros Hw t Ht.
    destruct (updateJob_peek_at q now id patch j t Hj Hw Ht) as (q2 & Hu2 & _ & Hp).
    rewrite Hu in Hu2. by injection Hu2 as ->.
  - destruct q as [b|b].
    + rewrite peek_memory in Hj. simpl in Hu. injection Hu as <-.
      unfold InMemoryBackend.read, InMemoryBackend.getJob in Hj.
      unfold InMemoryBackend.updateJob.
      destruct (InMemoryBackend.store b !! id) as [r|]; [|done]. by rewrite Hj.
    + unfold peek in Hj. simpl in Hj, Hu. unfold BullMQBackend.updateJob in Hu.
      destruct (BullMQBackend.ready b) as [[]|]; simpl in Hu; [|discriminate].
      destruct (BullMQBackend.getJob now id b) as [[j|]|msg]; simpl in Hj, Hu;
        try discriminate.
      by injection Hu as <-.
Qed.

Lemma status_write q now id s r er q' :
  updateJob now id (status_patch s r er) q = Ok q' ->
  match peek now id q with
  | Some j =>
      written_back q id j = true ->
      forall t, (t < now + DAY_MS)%Z ->
        peek t id q' = Some (assign j (status_patch s r er) now) /\
        job_status (assign j (status_patch s r er) now) = s
  | None => q' = q
  end.
Proof.
  intros Hu%updateJob_outcome. destruct (peek now id q) as [j|]; [|done].
  intros Hw t Ht. split; [by apply Hu|done].
Qed.

(** C5, as the code has it.  Whatever the queue and the outside do, a run
    issues at most one [fetch].  It issues one only if a non-empty
    [callbackUrl] was given, and then right after the [updateJob] call with
    a terminal status (done or error) has returned without throwing.  That
    call has written the terminal status into the job when it found the job
    stored under its id, and has written nothing when the job was not in
    the store any more; the webhook is sent in both cases, for whenever
    the run resolves and a non-empty [callbackUrl] was given the request
    has been issued.  The request is
    a POST to that url with a content-type header and a time limit of 10
    seconds, and its body carries the job id and that status.  After the
    request the run resolves with the queue as that call left it: when
    [fetch] rejects (network error, time limit) one warning is logged and
    nothing else happens; when [fetch] resolves, whatever the status code
    of the response, nothing is logged and nothing else happens. *)
Theorem webhook_is_attempted_once_and_swallowed
    (e : Env) (jobId output question : string) (tier : Tier)
    (keys : list (string * string)) (cb : option string) (w0 : World) :
  exists added,
    history (runJob e jobId output question tier keys cb w0).2 = (history w0 ++ added)%list /\
    length (filter (fun x => is_fetch x.1) added) <= 1 /\
    (truthy cb = true ->
     (runJob e jobId output question tier keys cb w0).1 = Ok tt ->
     exists req qf, (Fetch req, qf) ∈ added) /\
    forall req qf, (Fetch req, qf) ∈ added ->
      cb = Some (url req) /\ url req <> "" /\
      method req = "POST" /\
      ("Content-Type", "application/json") ∈ headers req /\
      timeout_ms req = 10000%Z /\
      w_jobId (body req) = jobId /\
      (w_status (body req) = done \/ w_status (body req) = error) /\
      (exists pre x qa now patch post,
         added = (pre ++ [(x, qa); (Update now jobId patch, qf); (Fetch req, qf)] ++ post)%list /\
         updateJob now jobId patch qa = Ok qf /\
         p_status patch = Some (w_status (body req)) /\
         match peek now jobId qa with
         | Some j =>
             written_back qa jobId j = true ->
             forall t, (t < now + DAY_MS)%Z ->
               peek t jobId qf = Some (assign j patch now) /\
               job_status (assign j patch now) = w_status (body req)
         | None => qf = qa
         end /\
         post = match fetch_settles e with
                | Ok _ => []
                | Threw err =>
                    [(Warn ("[pot-api] Webhook delivery failed for " ++ url req ++ ":") err, qf)]
                end) /\
      (runJob e jobId output question tier keys cb w0).1 = Ok tt /\
      queue (runJob e jobId output question tier keys cb w0).2 = qf.
Proof.
  unfold runJob, bind, try_catch, await_updateJob, await_verify, emit.
  destruct (updateJob (now_running e) jobId _ (queue w0)) as [q1|m1] eqn:Hu1; run_step.
  2: { eexists. split; [done|]. split; [simpl; lia|].
       split; [intros _ Hok; simpl in Hok; discriminate Hok|].
       intros req qf H. pick_entry H. }
  assert (Hlog : forall payload q,
    truthy cb = false /\ notify_log e cb payload q = [] \/
    exists url, cb = Some url /\ url <> "" /\
      notify_log e cb payload q = push_log e url payload q).
  { intros payload q. unfold notify_log. destruct cb as [url|]; [|by left].
    destruct (truthy (Some url)) eqn:Ht; [|by left].
    right. exists url. split; [done|]. split; [|done].
    intros ->. done. }
  set (q1' := (run (meanwhile e) q1).1).
  destruct (verify_settles e) as [result|err] eqn:Hv; run_step.
  - destruct (updateJob (now_done e) jobId _ q1') as [q2|m2] eqn:Hu2; run_step.
    + eexists. split; [done|].
      destruct (Hlog (mkPayload jobId done (Some result) None) q2) as [[Hcb ->]|(url & -> & Hne & ->)].
      { split; [simpl; lia|]. split; [intros Ht; congruence|].
        intros req qf H. pick_entry H. }
      unfold push_log. split; [destruct (fetch_settles e); simpl; lia|].
      split; [intros _ _; eexists _, _; repeat (apply elem_of_cons; first [left; reflexivity|right])|].
      intros req qf H.
      assert ((Fetch req, qf) = (Fetch (webhook_request url
                 (mkPayload jobId done (Some result) None)), q2)) as [= -> ->].
      { destruct (fetch_settles e); pick_entry H; done. }
      simpl. do 2 (split; [done|]). split; [done|]. split; [by left|].
      do 2 (split; [done|]). split; [by left|]. split; [|done].
      exists [(Update (now_running e) jobId (status_patch running None None), q1)].
      eexists _, q1', _, _, _. split; [simpl; reflexivity|]. split; [eassumption|]. split; [done|].
      split; [by apply status_write|done].
    + destruct (updateJob (now_error e) jobId _ q1') as [q3|m3] eqn:Hu3; run_step.
      2: { eexists. split; [done|]. split; [simpl; lia|].
       split; [intros _ Hok; simpl in Hok; discriminate Hok|].
       intros req qf H. pick_entry H. }
      eexists. split; [done|].
      destruct (Hlog (mkPayload jobId error None (Some m2)) q3) as [[Hcb ->]|(url & -> & Hne & ->)].
      { split; [simpl; lia|]. split; [intros Ht; congruence|].
        intros req qf H. pick_entry H. }
      unfold push_log. split; [destruct (fetch_settles e); simpl; lia|].
      split; [intros _ _; eexists _, _; repeat (apply elem_of_cons; first [left; reflexivity|right])|].
      intros req qf H.
      assert ((Fetch req, qf) = (Fetch (webhook_request url
                 (mkPayload jobId error None (Some m2))), q3)) as [= -> ->].
      { destruct (fetch_settles e); pick_entry H; done. }
      simpl. do 2 (split; [done|]). split; [done|]. split; [by left|].
      do 2 (split; [done|]). split; [by right|]. split; [|done].
      exists [(Update (now_running e) jobId (status_patch running None None), q1);
              (Verify output tier keys question, q1')].
      eexists _, q1', _, _, _. split; [simpl; reflexivity|]. split; [eassumption|]. split; [done|].
      split; [by apply status_write|done].
  - destruct (updateJob (now_error e) jobId _ q1') as [q3|m3] eqn:Hu3; run_step.
    2: { eexists. split; [done|]. split; [simpl; lia|].
       split; [intros _ Hok; simpl in Hok; discriminate Hok|].
       intros req qf H. pick_entry H. }
    eexists. split; [done|].
    destruct (Hlog (mkPayload jobId error None (Some err)) q3) as [[Hcb ->]|(url & -> & Hne & ->)].
    { split; [simpl; lia|]. split; [intros Ht; congruence|].
        intros req qf H. pick_entry H. }
    unfold push_log. split; [destruct (fetch_settles e); simpl; lia|].
      split; [intros _ _; eexists _, _; repeat (apply elem_of_cons; first [left; reflexivity|right])|].
    intros req qf H.
    assert ((Fetch req, qf) = (Fetch (webhook_request url
               (mkPayload jobId error None (Some err))), q3)) as [= -> ->].
    { destruct (fetch_settles e); pick_entry H; done. }
    simpl. do 2 (split; [done|]). split; [done|]. split; [by left|].
    do 2 (split; [done|]). split; [by right|]. split; [|done].
    exists [(Update (now_running e) jobId (status_patch running None None), q1)].
    eexists _, q1', _, _, _. split; [simpl; reflexivity|]. split; [eassumption|]. split; [done|].
      split; [by apply status_write|done].
Qed.

Lemma webhook_is_attempted_once_and_swallowed_witness :
  let w := (runJob busy_env "ghost" "o" "q" basic [] (Some "http://cb")
              (start (Memory InMemoryBackend.init))).2 in
  exists req qf,
    (Fetch req, qf) ∈ history w /\
    url req = "http://cb" /\ method req = "POST" /\ timeout_ms req = 10000%Z /\
    w_status (body req) = done /\
    queue w = qf /\ peek 5000 "ghost" qf = None.
Proof.
  intros w.
  destruct (webhook_is_attempted_once_and_swallowed busy_env "ghost" "o" "q" basic []
              (Some "http://cb") (start (Memory InMemoryBackend.init)))
    as (added & Hh & _ & Hsent & Hall).
  destruct Hsent as (req & qf & Hin); [reflexivity|vm_compute; reflexivity|].
  destruct (Hall req qf Hin) as (Hcb & _ & Hm & _ & Ht & _ & _ & _ & _ & Hq).
  exists req, qf. subst w. split; [rewrite Hh; exact Hin|].
  injection Hcb as <-. do 3 (split; [done|]).
  vm_compute in Hh. subst added.
  repeat (apply elem_of_cons in Hin as [Hin|Hin]; [try discriminate Hin|]);
    [|by apply elem_of_nil in Hin].
  injection Hin as -> ->. vm_compute. done.
Defined.

(** C5 as stated fails for a response with a non-success status code:
    [fetch] resolves, so nothing is caught and nothing is logged, whereas a
    rejected [fetch] is logged. *)
Lemma webhook_http_error_is_not_logged :
  let answered := mkEnv 2000 3000 3000 (Ok "verified") [] (Ok 500%Z) in
  let refused := mkEnv 2000 3000 3000 (Ok "verified") [] (Threw "fetch failed") in
  let q1 := Memory (InMemoryBackend.createJob "a" 1000 1000 eiffel InMemoryBackend.init).1 in
  let log e := effects (runJob e "a" "o" "q" basic [] (Some "http://cb") (start q1)).2 in
  non_success 500 = true /\
  length (filter is_fetch (log answered)) = 1 /\
  filter is_warn (log answered) = [] /\
  length (filter is_warn (log refused)) = 1.
Proof. vm_compute. done. Qed.

(** ** C6: failures of the durable store *)

(** C6, as the code has it.  With the store reachable, [getJob] never
    throws: a missing or expired key, an empty value and a value that does
    not parse all give not-found.  An [error] event of the connection is
    logged by the listener.  But a command that the client rejects, or a
    client library that failed to load, is not turned into not-found or a
    no-op: the rejection reaches the caller of [getJob], [createJob] and
    [updateJob]. *)
Theorem durable_store_failures :
  (forall b now id,
     healthy (Durable b) ->
     getJob now id (Durable b)
     = Ok (match Redis.kv (BullMQBackend.client b) !! BullMQBackend.key id ≫= Redis.live now with
           | Some (json_of j) => Some (owned j)
           | Some (other _) | None => None
           end)) /\
  (forall b msg now id,
     BullMQBackend.console (BullMQBackend.on_error msg b)
     = (BullMQBackend.console b ++ [("[pot-api] Redis error:", msg)])%list /\
     getJob now id (Durable (BullMQBackend.on_error msg b)) = getJob now id (Durable b)) /\
  (forall b now id uuid t1 t2 i patch,
     BullMQBackend.ready b = Ok tt ->
     Redis.connected (BullMQBackend.client b) = false ->
     exists msg,
       getJob now id (Durable b) = Threw msg /\
       createJob uuid t1 t2 i (Durable b) = Threw msg /\
       updateJob now id patch (Durable b) = Threw msg) /\
  (forall b now id uuid t1 t2 i patch msg,
     BullMQBackend.ready b = Threw msg ->
     getJob now id (Durable b) = Threw msg /\
     createJob uuid t1 t2 i (Durable b) = Threw msg /\
     updateJob now id patch (Durable b) = Threw msg).
Proof.
  split; [|split; [done|split]].
  - intros b now id [Hr Hc]. simpl. rewrite durable_getJob_eq by done.
    by destruct (_ ≫= _) as [[j|s]|].
  - intros b now id uuid t1 t2 i patch Hr Hc. eexists. simpl.
    unfold BullMQBackend.updateJob, BullMQBackend.getJob, BullMQBackend.createJob,
      Redis.get, Redis.set_ex.
    rewrite Hr, Hc. simpl. done.
  - intros b now id uuid t1 t2 i patch msg Hr. simpl.
    unfold BullMQBackend.updateJob, BullMQBackend.getJob, BullMQBackend.createJob.
    rewrite Hr. simpl. done.
Qed.

Lemma durable_store_failures_witness :
  getJob 5 "a" durable_init = Ok None /\
  exists msg,
    getJob 5 "a" (Durable (BullMQBackend.mk (Redis.mk ∅ false) (Ok tt) [])) = Threw msg.
Proof.
  destruct durable_store_failures as (Hget & _ & Hdown & _). split.
  - unfold durable_init. rewrite Hget by (by split). reflexivity.
  - destruct (Hdown (BullMQBackend.mk (Redis.mk ∅ false) (Ok tt) []) 5%Z "a" "a" 0%Z 0%Z eiffel
                empty_patch eq_refl eq_refl) as (msg & Hg & _).
    by exists msg.
Defined.

(** C6 as stated fails: with the connection down, [getJob] rejects instead
    of answering not-found, and so do [createJob] and [updateJob]. *)
Lemma durable_getJob_rejects_when_store_is_down :
  let down := Durable (BullMQBackend.mk (Redis.mk ∅ false) (Ok tt) []) in
  threw (getJob 5 "a" down) = true /\
  threw (createJob "a" 5 5 eiffel down) = true /\
  threw (updateJob 5 "a" empty_patch down) = true.
Proof. vm_compute. done. Qed.

(** ** C9: the two backends side by side *)

Lemma memory_updateJob_absent id patch now b :
  InMemoryBackend.read id b = None -> InMemoryBackend.updateJob id patch now b = b.
Proof.
  unfold InMemoryBackend.read, InMemoryBackend.getJob, InMemoryBackend.updateJob.
  destruct (InMemoryBackend.store b !! id) as [r|]; [|done]. by intros ->.
Qed.

Lemma agree_init : agree ∅ InMemoryBackend.init (BullMQBackend.mk (Redis.mk ∅ true) (Ok tt) []).
Proof.
  split; [apply MemoryFacts.wf_init|]. split; [done|].
  intros id. rewrite lookup_empty. split; [|apply lookup_empty].
  unfold InMemoryBackend.read, InMemoryBackend.getJob. simpl. by rewrite ?lookup_empty.
Qed.

Lemma agree_held l b d now id :
  agree l b d -> concordant (Get now id) l = true ->
  held now id d = InMemoryBackend.read id b.
Proof.
  intros (_ & _ & H) Hc. specialize (H id). unfold held. simpl in Hc.
  destruct (l !! id) as [[c u|u]|].
  - destruct H as (j & -> & _ & _ & ->). simpl. unfold Redis.live. simpl. by rewrite Hc.
  - destruct H as (-> & j & ->). simpl. unfold Redis.live. simpl.
    apply Z.leb_le in Hc. destruct (Z.ltb_spec now (u + DAY_MS)); [lia|done].
  - by destruct H as [-> ->].
Qed.

Lemma agree_step l c b d :
  agree l b d -> concordant c l = true ->
  exists b' d' a,
    step c (Memory b) = (Memory b', a) /\
    step c (Durable d) = (Durable d', a) /\
    agree (note c l) b' d'.
Proof.
  intros Hal Hc. pose proof Hal as (Hwf & [Hr Hcn] & Hrec).
  destruct c as [uuid t1 t2 i|now id|now id patch|now].
  - exists (InMemoryBackend.createJob uuid t1 t2 i b).1. eexists.
    exists (Returned (Some (new_job uuid t1 t2 i))).
    split; [|split].
    + cbn [step createJob]. simpl qb_createJob. cbn [fmap outcome_fmap prod_map].
      pose proof (MemoryFacts.createJob_ref uuid t1 t2 i b) as Href.
      simpl in Href |- *. unfold InMemoryBackend.deref in *. simpl in *. by rewrite Href.
    + cbn [step createJob]. simpl qb_createJob. rewrite durable_createJob_eq by done. done.
    + split; [by apply MemoryFacts.wf_createJob|]. split; [done|].
      intros id. cbn [note]. destruct (decide (id = uuid)) as [->|Hne].
      * rewrite lookup_insert_eq. exists (new_job uuid t1 t2 i).
        rewrite MemoryFacts.read_createJob_eq. simpl. rewrite lookup_insert_eq. done.
      * rewrite lookup_insert_ne by done.
        rewrite MemoryFacts.read_createJob_ne by done. simpl.
        rewrite lookup_insert_ne by (by apply key_ne). apply Hrec.
  - exists b, d, (Returned (InMemoryBackend.read id b)). split; [|split; [|done]].
    + simpl. unfold InMemoryBackend.read. by destruct (InMemoryBackend.getJob id b).
    + cbn [step getJob]. simpl qb_getJob. rewrite durable_getJob_eq by done.
      fold (held now id d). rewrite (agree_held l b d) by done.
      by destruct (InMemoryBackend.read id b).
  - exists (InMemoryBackend.updateJob id patch now b). eexists. exists Finished.
    split; [done|]. split.
    + cbn [step updateJob]. simpl qb_updateJob. rewrite durable_updateJob_eq by done. done.
    + assert (Hg : concordant (Get now id) l = true).
      { simpl in Hc |- *. destruct (l !! id) as [[c u|u]|]; try done.
        by apply andb_true_iff in Hc as [? _]. }
      rewrite durable_getJob_eq by done. fold (held now id d).
      rewrite (agree_held l b d) by done.
      pose proof (Hrec id) as Hid. cbn [concordant] in Hc. cbn [note].
      destruct (l !! id) as [[c u|u]|] eqn:Hl.
      * destruct Hid as (j & Hj & Hjid & Hjc & Hkv). rewrite Hj.
        apply andb_true_iff in Hc as [Hnow Hpid]. apply bool_decide_eq_true in Hpid.
        split; [by apply MemoryFacts.wf_updateJob|]. split; [done|].
        intros id'. destruct (decide (id' = id)) as [->|Hne].
        -- rewrite lookup_insert_eq. exists (assign j patch now).
           rewrite MemoryFacts.read_updateJob_eq, Hj. simpl.
           rewrite Hjid, Hjc, lookup_insert_eq. done.
        -- rewrite lookup_insert_ne by done.
           rewrite MemoryFacts.read_updateJob_ne by done. simpl.
           rewrite Hjid, lookup_insert_ne by (by apply key_ne). apply Hrec.
      * destruct Hid as (Hj & _). rewrite Hj. by rewrite memory_updateJob_absent.
      * destruct Hid as (Hj & _). rewrite Hj. by rewrite memory_updateJob_absent.
  - exists (InMemoryBackend.sweep now b), d, Finished. split; [done|]. split; [done|].
    split; [by apply MemoryFacts.wf_sweep|]. split; [done|].
    intros id. cbn [note]. rewrite lookup_fmap, MemoryFacts.read_sweep.
    specialize (Hrec id).
    destruct (l !! id) as [[c u|u]|]; simpl.
    + destruct Hrec as (j & Hj & Hjid & Hjc & Hkv). rewrite Hj, Hjc.
      destruct (c <? now - RETENTION_MS)%Z.
      * split; [done|by exists j].
      * by exists j.
    + by destruct Hrec as (-> & Hkv).
    + by destruct Hrec as (-> & Hkv).
Qed.

Lemma agree_run l cs b d :
  agree l b d -> agreeable l cs = true ->
  exists b' d',
    (run cs (Memory b)).1 = Memory b' /\
    (run cs (Durable d)).1 = Durable d' /\
    agree (foldl (fun l c => note c l) l cs) b' d' /\
    (run cs (Memory b)).2 = (run cs (Durable d)).2.
Proof.
  revert l b d. induction cs as [|c cs IH]; intros l b d Hal Hcs; [by exists b, d|].
  simpl in Hcs. apply andb_true_iff in Hcs as [Hc Hcs].
  destruct (agree_step l c b d Hal Hc) as (b1 & d1 & a & Hm & Hd & Hal1).
  destruct (IH _ _ _ Hal1 Hcs) as (b' & d' & Hb & Hd' & Hal' & Hlog).
  exists b', d'. rewrite !run_cons, Hm, Hd. cbn [fst snd foldl].
  split; [done|]. split; [done|]. split; [done|]. by f_equal.
Qed.

Lemma step_Get_memory now id b :
  (step (Get now id) (Memory b)).2 = Returned (InMemoryBackend.read id b).
Proof. simpl. unfold InMemoryBackend.read. by destruct (InMemoryBackend.getJob id b). Qed.

Lemma step_Get_durable now id d :
  healthy (Durable d) -> (step (Get now id) (Durable d)).2 = Returned (held now id d).
Proof.
  intros [Hr Hc]. cbn [step getJob]. simpl qb_getJob. rewrite durable_getJob_eq by done.
  fold (held now id d). by destruct (held now id d).
Qed.

Lemma agree_discord l b d now id :
  agree l b d -> concordant (Get now id) l = false ->
  (step (Get now id) (Memory b)).2 <> (step (Get now id) (Durable d)).2.
Proof.
  intros (_ & Hh & H) Hc. rewrite step_Get_memory, step_Get_durable by done.
  specialize (H id). unfold held. simpl in Hc.
  destruct (l !! id) as [[c u|u]|]; [| |done].
  - destruct H as (j & -> & _ & _ & ->). simpl. unfold Redis.live. simpl. by rewrite Hc.
  - destruct H as (-> & j & ->). simpl. unfold Redis.live. simpl.
    apply Z.leb_gt in Hc. by rewrite (proj2 (Z.ltb_lt _ _) Hc).
Qed.

(** C9, as the code has it.  Started empty, with the durable store
    reachable, the two backends give the same answers to every session of
    facade calls and timer firings (the content of a returned object being
    read when the call returns) in which the two retention rules never
    disagree on a job at the moment a call addresses it.  In memory a job
    is dropped by the first firing of the timer later than one hour after
    its [createdAt]; in the durable store it is dropped a day after its
    last write.  So every [getJob] and [updateJob] must address a job that
    both have (not swept, last written less than a day before), or one that
    neither has (swept and last written a day before or more, or never
    created); and no patch applied to a job changes its [id].  What happens
    to jobs that no later call addresses does not matter.  The condition
    gives up no more than it must: after such a session, a [getJob] for a
    job on which the two rules disagree is answered differently by the two
    backends. *)
Theorem backends_agree_while_retention_agrees (cs : list call) :
  agreeable ∅ cs = true ->
  (run cs (Memory InMemoryBackend.init)).2 = (run cs durable_init).2 /\
  forall now id,
    concordant (Get now id) (standings cs) = false ->
    (step (Get now id) (run cs (Memory InMemoryBackend.init)).1).2
    <> (step (Get now id) (run cs durable_init).1).2.
Proof.
  intros Hcs.
  destruct (agree_run ∅ cs _ _ agree_init Hcs) as (b' & d' & Hb & Hd & Hal & Hlog).
  split; [exact Hlog|].
  intros now id Hc. unfold durable_init. rewrite Hb, Hd. by eapply agree_discord.
Qed.

Lemma backends_agree_while_retention_agrees_witness :
  let cs := [Create "a" 1000 1001 eiffel;
             Put 700000 "a" (status_patch running None None);
             Tick 4800000;
             Create "b" 4800000 4800001 eiffel;
             Put 5000000 "b" (status_patch done (Some "ok") None);
             Tick 8000000;
             Get 8100000 "b";
             Get 8100000 "c";
             Put 90000000 "a" (status_patch done (Some "late") None);
             Get 90000000 "a"] in
  (run cs (Memory InMemoryBackend.init)).2 = (run cs durable_init).2 /\
  (step (Get 91400000 "b") (run cs (Memory InMemoryBackend.init)).1).2
  <> (step (Get 91400000 "b") (run cs durable_init).1).2.
Proof.
  intros cs.
  destruct (backends_agree_while_retention_agrees cs) as [Hlog Hget];
    [vm_compute; reflexivity|].
  split; [exact Hlog|]. apply Hget. vm_compute. reflexivity.
Defined.

(** C9 as stated fails: the in-memory backend drops a job once the timer
    fires more than an hour after its creation, the durable backend keeps
    it for a day.  Created at 0, after a firing at minute 70 the job is
    not found at minute 71 in memory and is found in the durable store. *)
Lemma backends_differ_after_an_hour :
  let cs := [Create "a" 0 0 eiffel; Tick (70 * 60000); Get (71 * 60000) "a"] in
  (run cs (Memory InMemoryBackend.init)).2.*2
  = [Returned (Some (new_job "a" 0 0 eiffel)); Finished; Returned None] /\
  (run cs durable_init).2.*2
  = [Returned (Some (new_job "a" 0 0 eiffel)); Finished; Returned (Some (new_job "a" 0 0 eiffel))] /\
  (run cs (Memory InMemoryBackend.init)).2 <> (run cs durable_init).2.
Proof. vm_compute. repeat split. discriminate. Qed.

(** The object that the in-memory [createJob] returns is the stored one: a
    caller that keeps it sees later updates in it; the copy returned by
    the durable backend stays as it was. *)
Lemma createJob_result_is_shared_in_memory :
  let after q :=
    match createJob "a" 0 0 eiffel q with
    | Ok (q1, r) =>
        match updateJob 5 "a" (status_patch running None None) q1 with
        | Ok q2 => job_status <$> look q2 r
        | Threw _ => None
        end
    | Threw _ => None
    end in
  after (Memory InMemoryBackend.init) = Some running /\
  after durable_init = Some pending.
Proof. vm_compute. done. Qed.

(** * Further properties of the code *)

(** ** Credentials *)

Lemma truthy_Some (v : string) : truthy (Some v) = true <-> v <> "".
Proof.
  unfold truthy. destruct (String.eqb_spec v ""); simpl; split; congruence.
Qed.

Lemma elem_of_entry name k n v :
  (n, v) ∈ entry name k <-> n = name /\ k = Some v /\ v <> "".
Proof.
  unfold entry. destruct k as [u|].
  - destruct (truthy (Some u)) eqn:Ht.
    + rewrite list_elem_of_singleton. apply truthy_Some in Ht. split.
      * by intros [= -> ->].
      * by intros (-> & [= ->] & _).
    + split; [by intros ?%elem_of_nil|]. intros (_ & [= ->] & Hv).
      apply truthy_Some in Hv. congruence.
  - split; [by intros ?%elem_of_nil|]. by intros (_ & ? & _).
Qed.

Lemma entry_names name k : (entry name k).*1 = [] \/ (entry name k).*1 = [name].
Proof. unfold entry. destruct k as [u|]; [|by left]. destruct (truthy (Some u)); auto. Qed.

Lemma validateConfig_None keys :
  validateConfig keys = None <-> exists v, anthropic keys = Some v /\ v <> "".
Proof.
  unfold validateConfig. destruct (anthropic keys) as [v|].
  - destruct (truthy (Some v)) eqn:Ht.
    + apply truthy_Some in Ht. split; [|done]. intros _. by exists v.
    + split; [done|]. intros (u & [= <-] & Hu). apply truthy_Some in Hu. congruence.
  - split; [done|]. by intros (u & ? & _).
Qed.

(** X1.  The record handed to [verify] holds exactly the provider keys that
    are present and non-empty, each under its provider's name and at most
    once; and a configuration passes [validateConfig] exactly when that
    record has an entry for "anthropic". *)
Theorem api_key_record_holds_the_non_empty_keys (keys : ApiKeys) :
  (forall name v,
     (name, v) ∈ buildApiKeyRecord keys <->
     v <> "" /\
     (name = "anthropic" /\ anthropic keys = Some v \/
      name = "xai" /\ xai keys = Some v \/
      name = "deepseek" /\ deepseek keys = Some v \/
      name = "moonshot" /\ moonshot keys = Some v)) /\
  NoDup (buildApiKeyRecord keys).*1 /\
  (validateConfig keys = None <-> exists v, ("anthropic", v) ∈ buildApiKeyRecord keys).
Proof.
  assert (Hmem : forall name v,
     (name, v) ∈ buildApiKeyRecord keys <->
     v <> "" /\
     (name = "anthropic" /\ anthropic keys = Some v \/
      name = "xai" /\ xai keys = Some v \/
      name = "deepseek" /\ deepseek keys = Some v \/
      name = "moonshot" /\ moonshot keys = Some v)).
  { intros name v. unfold buildApiKeyRecord.
    rewrite !elem_of_app, !elem_of_entry. tauto. }
  split; [exact Hmem|]. split.
  - unfold buildApiKeyRecord. rewrite !fmap_app.
    destruct (entry_names "anthropic" (anthropic keys)) as [->| ->],
             (entry_names "xai" (xai keys)) as [->| ->],
             (entry_names "deepseek" (deepseek keys)) as [->| ->],
             (entry_names "moonshot" (moonshot keys)) as [->| ->];
      simpl;
      repeat (apply NoDup_cons_2;
              [rewrite ?elem_of_cons, ?elem_of_nil; intuition discriminate|]);
      apply NoDup_nil_2.
  - unfold validateConfig. split.
    + destruct (truthy (anthropic keys)) eqn:Ht; [|done]. intros _.
      destruct (anthropic keys) as [v|] eqn:Ha; [|done].
      exists v. apply Hmem. apply truthy_Some in Ht. auto.
    + intros [v Hv]. apply Hmem in Hv as (Hne & [[_ Ha]|[[? _]|[[? _]|[? _]]]]); try done.
      rewrite Ha. by rewrite (proj2 (truthy_Some v) Hne).
Qed.

(** X2.  A key given with the request takes the place of the one of the
    environment whenever it is given at all, an empty one included: the
    configuration passes exactly when the request carries a non-empty
    anthropic key, or carries none and the environment has a non-empty
    one.  So an empty key in the request makes the request fail even when
    the environment holds a good key. *)
Theorem request_key_overrides_environment (override : option ApiKeys) (process_env : ApiKeys) :
  validateConfig (resolveKeys override process_env) = None <->
  (exists v, override ≫= anthropic = Some v /\ v <> "") \/
  (override ≫= anthropic = None /\ exists v, anthropic process_env = Some v /\ v <> "").
Proof.
  rewrite validateConfig_None.
  change (anthropic (resolveKeys override process_env))
    with (nullish (override ≫= anthropic) (anthropic process_env)).
  destruct (override ≫= anthropic) as [v|]; unfold nullish.
  - split.
    + intros (u & [= <-] & Hu). left. by exists v.
    + intros [(u & [= <-] & Hu)|[? _]]; [by exists v|done].
  - split.
    + intros (u & Hu & Hne). right. split; [done|]. by exists u.
    + intros [(u & ? & _)|(_ & Hu)]; done.
Qed.

(** ** The two endpoints *)

Lemma valid_request_dec process_env req :
  valid_request process_env req \/
  (truthy (b_output req) = false \/ truthy (b_question req) = false \/
   truthy (anthropic (resolveKeys (b_apiKeys req) process_env)) = false).
Proof.
  unfold valid_request.
  destruct (truthy (b_output req)), (truthy (b_question req)),
           (truthy (anthropic (resolveKeys (b_apiKeys req) process_env))); auto.
Qed.

Lemma truthy_is_Some k : truthy k = true -> exists v, k = Some v.
Proof. destruct k as [v|]; [by exists v|done]. Qed.

Lemma verify_sync_rejects process_env e req w :
  truthy (b_output req) = false \/ truthy (b_question req) = false \/
  truthy (anthropic (resolveKeys (b_apiKeys req) process_env)) = false ->
  exists message, verify_sync process_env e req w = (Ok (BadRequest message), w).
Proof.
  unfold verify_sync, validateConfig.
  destruct (b_output req) as [o|], (b_question req) as [qn|]; try by eexists.
  destruct (truthy (Some o)), (truthy (Some qn)); simpl; try by eexists.
  intros [?|[?|Hk]]; try done. rewrite Hk. by eexists.
Qed.

Lemma verify_sync_accepts process_env e req w output question :
  b_output req = Some output -> b_question req = Some question ->
  valid_request process_env req ->
  verify_sync process_env e req w
  = (Ok (match verify_settles e with Ok r => Verified r | Threw m => Failed m end),
     {| queue := (run (meanwhile e) (queue w)).1;
        history :=
          history w
          ++ [(Verify output (default basic (b_tier req))
                 (buildApiKeyRecord (resolveKeys (b_apiKeys req) process_env)) question,
               (run (meanwhile e) (queue w)).1)] |}).
Proof.
  intros Ho Hq (Hto & Htq & Hk). unfold verify_sync, validateConfig.
  rewrite Ho, Hq in *. rewrite Hto, Htq, Hk. cbn [negb orb].
  unfold try_catch, bind, await_verify, ret, emit. cbn [queue history].
  by destruct (verify_settles e).
Qed.

(** X3.  The synchronous endpoint always answers and never calls the
    queue.  A body without a non-empty [output] and [question], or without
    a usable anthropic key, gets a 400 and nothing else happens.  Any other
    body leads to exactly one [verify] call, with [tier] defaulting to
    basic and the non-empty keys as credentials; the answer is the result
    when [verify] resolves and a 500 with the message when it rejects. *)
Theorem sync_endpoint_answers_without_the_queue
    (process_env : ApiKeys) (e : Env) (req : AsyncBody) (w : World) :
  exists resp w',
    verify_sync process_env e req w = (Ok resp, w') /\
    (~ valid_request process_env req /\ (exists message, resp = BadRequest message) /\ w' = w
     \/
     valid_request process_env req /\
     exists output question,
       b_output req = Some output /\ b_question req = Some question /\
       queue w' = (run (meanwhile e) (queue w)).1 /\
       history w'
       = (history w
          ++ [(Verify output (default basic (b_tier req))
                 (buildApiKeyRecord (resolveKeys (b_apiKeys req) process_env)) question,
               queue w')])%list /\
       resp = match verify_settles e with Ok r => Verified r | Threw m => Failed m end).
Proof.
  destruct (valid_request_dec process_env req) as [Hv|Hinv].
  - pose proof Hv as (Hto & Htq & _).
    destruct (truthy_is_Some _ Hto) as [o Ho], (truthy_is_Some _ Htq) as [qn Hq].
    rewrite (verify_sync_accepts _ _ _ _ o qn Ho Hq Hv).
    eexists _, _. split; [done|]. right. split; [done|]. by exists o, qn.
  - destruct (verify_sync_rejects process_env e req w Hinv) as [m Hm].
    exists (BadRequest m), w. split; [done|]. left.
    split; [|split; [by exists m|done]].
    intros (Hto & Htq & Hk). destruct Hinv as [?|[?|?]]; congruence.
Qed.

(** X4.  The two endpoints turn down the same bodies with the same
    message, and a body that is turned down leaves no trace: no job is
    created, [verify] is not called, the queue and the log stay as they
    were.  A body is turned down exactly when it is not valid. *)
Theorem endpoints_reject_the_same_requests
    (process_env : ApiKeys) (uuid : string) (t1 t2 : Z) (e : Env) (req : AsyncBody)
    (w : World) :
  (forall message,
     (verify_sync process_env e req w).1 = Ok (BadRequest message) <->
     (verify_async process_env uuid t1 t2 e req w).1 = Ok (BadRequest message)) /\
  ((exists message,
      verify_async process_env uuid t1 t2 e req w = (Ok (BadRequest message), w) /\
      verify_sync process_env e req w = (Ok (BadRequest message), w)) <->
   ~ valid_request process_env req).
Proof.
  destruct (valid_request_dec process_env req) as [Hv|Hinv].
  - pose proof Hv as (Hto & Htq & Hk).
    destruct (truthy_is_Some _ Hto) as [o Ho], (truthy_is_Some _ Htq) as [qn Hq].
    assert (Hs : forall m, (verify_sync process_env e req w).1 <> Ok (BadRequest m)).
    { intros m. rewrite (verify_sync_accepts _ _ _ _ o qn Ho Hq Hv). simpl.
      by destruct (verify_settles e). }
    assert (Ha : forall m, (verify_async process_env uuid t1 t2 e req w).1 <> Ok (BadRequest m)).
    { intros m. unfold verify_async, validateConfig.
      rewrite Ho, Hq in *. rewrite Hto, Htq, Hk. cbn [negb orb].
      destruct (createJob _ _ _ _ _) as [[q1 r]|]; [|done].
      by destruct (look q1 r). }
    split.
    + intros m. split; intros H; [by apply Hs in H|by apply Ha in H].
    + split; [|done]. intros (m & H & _). exfalso. apply (Ha m). by rewrite H.
  - destruct (verify_sync_rejects process_env e req w Hinv) as [m Hm].
    destruct (verify_async_rejects process_env uuid t1 t2 e req w Hinv) as [m' Hm'].
    assert (m' = m) as ->.
    { revert Hm Hm'. unfold verify_sync, verify_async.
      destruct (b_output req), (b_question req); try congruence.
      destruct (_ || _); [congruence|].
      destruct (validateConfig _); [congruence|].
      intros _. destruct (createJob _ _ _ _ _) as [[q1 r]|]; [|done].
      by destruct (look q1 r). }
    split.
    + intros m0. by rewrite Hm, Hm'.
    + split.
      * intros _ (Hto & Htq & Hk). destruct Hinv as [?|[?|?]]; congruence.
      * intros _. by exists m.
Qed.




Section accepted_request.
Variables (process_env : ApiKeys) (uuid : string) (t1 t2 : Z) (e : Env) (req : AsyncBody).
Variables (w : World) (output question : string) (lo poll_at : Z).
Hypothesis Ho : b_output req = Some output.
Hypothesis Hqn : b_question req = Some question.
Hypothesis Hvalid : valid_request process_env req.
Hypothesis Hq : healthy (queue w).
Hypothesis Htidy : tidy (queue w).
Hypothesis Ht2 : within lo t2.
Hypothesis Hrun : within lo (now_running e).
Hypothesis Hdone : within lo (now_done e).
Hypothesis Herr : within lo (now_error e).
Hypothesis Hpoll : within lo poll_at.
Hypothesis Hothers : Forall (foreign uuid (t1 + RETENTION_MS)) (meanwhile e).

End accepted_request.








(** ** The in-memory backend ([queue.ts], and the same code in [jobs.ts]) *)

Lemma expired_sweep now b cutoff r :
  InMemoryBackend.expired (InMemoryBackend.sweep now b) cutoff r
  = InMemoryBackend.expired b cutoff r.
Proof. done. Qed.

(** X8.  Firing the timer twice amounts to firing it once at the later of
    the two instants, in whichever order the two firings come: an earlier
    firing adds nothing to a later one, and firing again at the same
    instant changes nothing. *)
Theorem sweep_after_sweep (t1 t2 : Z) (b : InMemoryBackend.t) :
  InMemoryBackend.sweep t1 (InMemoryBackend.sweep t2 b)
  = InMemoryBackend.sweep (Z.max t1 t2) b.
Proof.
  unfold InMemoryBackend.sweep at 1 3. cbn [InMemoryBackend.heap InMemoryBackend.store].
  f_equal. apply map_filter_strong_ext_1. intros id r. cbn [snd].
  rewrite expired_sweep. unfold InMemoryBackend.sweep. cbn [InMemoryBackend.store].
  rewrite map_lookup_filter_Some. cbn [snd]. unfold InMemoryBackend.expired.
  destruct (InMemoryBackend.deref b r) as [j|]; [|tauto].
  destruct (Z.ltb_spec (job_createdAt j) (t1 - RETENTION_MS)),
           (Z.ltb_spec (job_createdAt j) (t2 - RETENTION_MS)),
           (Z.ltb_spec (job_createdAt j) (Z.max t1 t2 - RETENTION_MS));
    try tauto; try lia; split; try tauto; intros; exfalso; lia.
Qed.

(** X9.  In memory an update does not postpone eviction.  For a patch that
    does not carry [createdAt], what [getJob] returns once the job has been
    updated and the timer has fired is what it returns when the timer
    fires without the update, with the patch merged in: the job is gone in
    the one case exactly when it is gone in the other. *)
Theorem update_does_not_postpone_eviction
    (b : InMemoryBackend.t) (id : string) (patch : JobPatch) (t now : Z) :
  p_createdAt patch = None ->
  InMemoryBackend.read id (InMemoryBackend.sweep now (InMemoryBackend.updateJob id patch t b))
  = (fun j => assign j patch t) <$> InMemoryBackend.read id (InMemoryBackend.sweep now b).
Proof.
  intros Hp. rewrite !MemoryFacts.read_sweep, MemoryFacts.read_updateJob_eq.
  destruct (InMemoryBackend.read id b) as [j|]; [|done]. simpl. rewrite Hp. simpl.
  by destruct (_ <? _)%Z.
Qed.

Lemma update_does_not_postpone_eviction_witness :
  let b := (InMemoryBackend.createJob "a" 0 0 eiffel InMemoryBackend.init).1 in
  InMemoryBackend.read "a"
    (InMemoryBackend.sweep (61 * 60000)
       (InMemoryBackend.updateJob "a" (status_patch running None None) (59 * 60000) b))
  = None.
Proof.
  intros b.
  rewrite (update_does_not_postpone_eviction b "a" (status_patch running None None)
             (59 * 60000) (61 * 60000) eq_refl).
  reflexivity.
Defined.

Lemma mstep_reference id r c b :
  InMemoryBackend.wf b -> not_redrawn id c -> (r < length (InMemoryBackend.heap b))%nat ->
  InMemoryBackend.getJob id b = Some r \/ InMemoryBackend.getJob id b = None ->
  (r < length (InMemoryBackend.heap (Expiry.mstep c b)))%nat /\
  (InMemoryBackend.getJob id (Expiry.mstep c b) = Some r \/
   InMemoryBackend.getJob id (Expiry.mstep c b) = None) /\
  (InMemoryBackend.getJob id b = None -> InMemoryBackend.getJob id (Expiry.mstep c b) = None).
Proof.
  intros Hwf Hc Hr Hg. unfold InMemoryBackend.getJob in *.
  destruct c as [u t1 t2 i|now id'|now id' patch|now]; unfold Expiry.mstep, not_redrawn in *.
  - simpl in *. rewrite length_app, lookup_insert_ne by congruence. simpl.
    split; [lia|]. split; [done|auto].
  - auto.
  - unfold InMemoryBackend.updateJob.
    destruct (InMemoryBackend.store b !! id') as [r'|]; [|auto].
    destruct (InMemoryBackend.deref b r'); [|auto]. simpl. rewrite length_insert. auto.
  - simpl. split; [done|].
    destruct (filter _ (InMemoryBackend.store b) !! id) as [r'|] eqn:Hf.
    + apply map_lookup_filter_Some in Hf as [Hf _].
      destruct Hg as [Hg|Hg]; rewrite Hg in Hf; [|done].
      split; [left; congruence|]. intros Hn. by rewrite Hn in Hg.
    + auto.
Qed.

(** X10.  An object handed out by the in-memory backend is never dropped
    and never replaced: through any later calls and timer firings that do
    not draw the same id again, the reference a caller got from [getJob]
    still points to an object, and [getJob] for that id returns either
    that same reference or, once the job was evicted, nothing. *)
Theorem in_memory_references_stay_valid
    (b : InMemoryBackend.t) (id : string) (r : nat) (cs : list call) :
  InMemoryBackend.wf b ->
  InMemoryBackend.getJob id b = Some r ->
  Forall (not_redrawn id) cs ->
  forall t,
    is_Some (look (run cs (Memory b)).1 (shared r)) /\
    (getJob t id (run cs (Memory b)).1 = Ok (Some (shared r)) \/
     getJob t id (run cs (Memory b)).1 = Ok None).
Proof.
  intros Hwf Hg Hcs t. rewrite ExpiryFacts.run_memory. simpl.
  assert (Hr : (r < length (InMemoryBackend.heap b))%nat) by (by eapply (proj1 Hwf)).
  assert (Hg' : InMemoryBackend.getJob id b = Some r \/ InMemoryBackend.getJob id b = None)
    by (by left).
  clear Hg. revert b Hwf Hr Hg'.
  induction Hcs as [|c cs Hc Hcs IH]; intros b Hwf Hr Hg; simpl.
  - split; [by apply lookup_lt_is_Some|]. by destruct Hg as [-> | ->]; [left|right].
  - destruct (mstep_reference id r c b Hwf Hc Hr Hg) as (Hr' & Hg' & _).
    apply IH; [by apply ExpiryFacts.wf_mstep|done..].
Qed.

Lemma in_memory_references_stay_valid_witness :
  let b := (InMemoryBackend.createJob "a" 0 0 eiffel InMemoryBackend.init).1 in
  let cs := [Put 5 "a" (status_patch running None None); Create "b" 6 6 eiffel;
             Tick (61 * 60000)] in
  is_Some (look (run cs (Memory b)).1 (shared 0%nat)) /\
  getJob 7 "a" (run cs (Memory b)).1 = Ok None.
Proof.
  intros b cs.
  destruct (in_memory_references_stay_valid b "a" 0 cs) with (t := 7%Z) as [Hlive Hget].
  - apply MemoryFacts.wf_createJob, MemoryFacts.wf_init.
  - reflexivity.
  - repeat apply Forall_cons_2; try apply Forall_nil_2; unfold not_redrawn; simpl; done.
  - split; [exact Hlive|]. reflexivity.
Defined.

Lemma poll_memory_gone t id b :
  InMemoryBackend.read id b = None -> poll t id (Memory b) = Ok (NotFound "Job not found").
Proof.
  unfold poll, InMemoryBackend.read. simpl.
  destruct (InMemoryBackend.getJob id b) as [r|]; simpl; [|done]. by intros ->.
Qed.

(** X11.  When the timer evicts a job while its verification is still
    pending (it fires more than an hour after the creation), the run goes
    on regardless: [verify] is awaited, the terminal write is issued and
    changes nothing, and the webhook, if one is due, is sent with the
    terminal status.  Polling the id afterwards answers 404: the outcome
    reaches the callback but never the queue. *)
Theorem job_evicted_while_verify_is_pending
    (b : InMemoryBackend.t) (uuid : string) (T t2 : Z) (i : JobInput) (e : Env)
    (output question : string) (tier : Tier) (keys : list (string * string))
    (cb : option string) (cs1 cs2 : list call) (s : Z) :
  InMemoryBackend.wf b ->
  meanwhile e = (cs1 ++ Tick s :: cs2)%list ->
  Forall (Expiry.keeps uuid) cs1 ->
  Forall (Expiry.keeps uuid) cs2 ->
  (T + RETENTION_MS < s)%Z ->
  exists w,
    runJob e uuid output question tier keys cb
      (start (Memory (InMemoryBackend.createJob uuid T t2 i b).1)) = (Ok tt, w) /\
    (forall t, poll t uuid (queue w) = Ok (NotFound "Job not found")) /\
    effects w
    = ([Update (now_running e) uuid (status_patch running None None);
        Verify output tier keys question;
        Update (terminal_now e) uuid (terminal_patch e)]
       ++ (notify_log e cb (terminal_payload e uuid) (queue w)).*1)%list.
Proof.
  intros Hwf Hmean Hk1 Hk2 Hs.
  set (b1 := (InMemoryBackend.createJob uuid T t2 i b).1).
  assert (Hwf1 : InMemoryBackend.wf b1) by by apply MemoryFacts.wf_createJob.
  set (b2 := InMemoryBackend.updateJob uuid (status_patch running None None) (now_running e) b1).
  assert (Hwf2 : InMemoryBackend.wf b2) by by apply MemoryFacts.wf_updateJob.
  assert (Hr2 : InMemoryBackend.read uuid b2
                = Some (assign (new_job uuid T t2 i) (status_patch running None None)
                          (now_running e))).
  { subst b2 b1. by rewrite MemoryFacts.read_updateJob_eq, MemoryFacts.read_createJob_eq. }
  set (b3 := foldl (fun b c => Expiry.mstep c b) b2 (meanwhile e)).
  assert (Hr3 : InMemoryBackend.read uuid b3 = None).
  { subst b3. rewrite Hmean, foldl_app. simpl.
    apply ExpiryFacts.mrun_gone; [by apply MemoryFacts.wf_sweep, ExpiryFacts.wf_mrun|done|].
    rewrite MemoryFacts.read_sweep.
    destruct (ExpiryFacts.mrun_kept uuid cs1 _ _ Hwf2 Hk1 Hr2) as [-> |(j' & -> & Hcr)];
      [done|].
    simpl in Hcr. rewrite Hcr.
    destruct (Z.ltb_spec T (s - RETENTION_MS)); [done|lia]. }
  assert (Hrun : (run (meanwhile e) (Memory b2)).1 = Memory b3)
    by apply ExpiryFacts.run_memory.
  exists {| queue := Memory b3;
            history :=
              [(Update (now_running e) uuid (status_patch running None None), Memory b2);
               (Verify output tier keys question, Memory b3);
               (Update (terminal_now e) uuid (terminal_patch e), Memory b3)]
              ++ notify_log e cb (terminal_payload e uuid) (Memory b3) |}.
  split; [|split].
  - rewrite (runJob_spec _ _ _ _ _ _ _ _ (Memory b2) (Memory b3)).
    + by rewrite Hrun.
    + done.
    + rewrite Hrun. simpl. by rewrite memory_updateJob_absent.
  - intros t. by apply poll_memory_gone.
  - unfold effects. cbn [history queue]. by rewrite fmap_app.
Qed.

Lemma job_evicted_while_verify_is_pending_witness :
  let slow := mkEnv 1000 (62 * 60000) (62 * 60000) (Ok "verified")
                [Get 2000 "a"; Tick (61 * 60000)] (Ok 200%Z) in
  exists w,
    runJob slow "a" "o" "q" basic [] (Some "http://cb")
      (start (Memory (InMemoryBackend.createJob "a" 0 0 eiffel InMemoryBackend.init).1))
    = (Ok tt, w) /\
    poll (63 * 60000) "a" (queue w) = Ok (NotFound "Job not found") /\
    filter is_fetch (effects w)
    = [Fetch (webhook_request "http://cb" (mkPayload "a" done (Some "verified") None))].
Proof.
  intros slow.
  destruct (job_evicted_while_verify_is_pending InMemoryBackend.init "a" 0 0 eiffel slow
              "o" "q" basic [] (Some "http://cb") [Get 2000 "a"] [] (61 * 60000))
    as (w & Hrun & Hpoll & Heff).
  - apply MemoryFacts.wf_init.
  - reflexivity.
  - by repeat constructor.
  - constructor.
  - unfold RETENTION_MS. lia.
  - exists w. split; [exact Hrun|]. split; [apply Hpoll|].
    rewrite Heff. vm_compute in Hrun. injection Hrun as <-. reflexivity.
Defined.

(** ** Both backends *)

Lemma durable_createJob_Ok uuid t1 t2 i b x :
  BullMQBackend.createJob uuid t1 t2 i b = Ok x -> healthy (Durable b).
Proof.
  unfold BullMQBackend.createJob, Redis.set_ex, healthy.
  destruct (BullMQBackend.ready b) as [[]|]; simpl; [|done].
  by destruct (Redis.connected (BullMQBackend.client b)).
Qed.

Lemma durable_updateJob_Ok now id patch b x :
  BullMQBackend.updateJob now id patch b = Ok x -> healthy (Durable b).
Proof.
  unfold BullMQBackend.updateJob, BullMQBackend.getJob, Redis.get, healthy.
  destruct (BullMQBackend.ready b) as [[]|]; simpl; [|done].
  by destruct (Redis.connected (BullMQBackend.client b)).
Qed.

Lemma durable_getJob_Some now id b j :
  healthy (Durable b) -> BullMQBackend.getJob now id b = Ok (Some j) ->
  exists deadline,
    Redis.kv (BullMQBackend.client b) !! BullMQBackend.key id = Some (json_of j, deadline).
Proof.
  intros [Hr Hc]. rewrite durable_getJob_eq by done.
  destruct (Redis.kv (BullMQBackend.client b) !! BullMQBackend.key id) as [[v d]|]; simpl;
    [|done].
  unfold Redis.live. simpl. destruct (_ <? _)%Z; simpl; [|done].
  destruct v as [j'|]; [|done]. intros [= ->]. by exists d.
Qed.

Lemma registered_mono ids ids' q :
  (forall id, id ∈ ids -> id ∈ ids') -> registered ids q -> registered ids' q.
Proof.
  intros Hsub. destruct q as [b|b]; simpl.
  - intros [Hwf H]. split; [done|]. intros id j Hj. destruct (H id j Hj). auto.
  - intros H id v d Hv. destruct (H id v d Hv). auto.
Qed.

Lemma registered_step ids c q :
  keeps_id c -> registered ids q -> registered (ids ++ uuids [c]) (step c q).1.
Proof.
  intros Hc Hreg.
  assert (Hold : registered (ids ++ uuids [c]) q).
  { eapply registered_mono; [|done]. intros id Hid. apply elem_of_app. by left. }
  destruct c as [u t1 t2 i|now id0|now id0 patch|now]; simpl in Hc.
  - destruct q as [b|b].
    + destruct Hreg as [Hwf Hreg]. split; [by apply MemoryFacts.wf_createJob|].
      intros id j. simpl.
      change (InMemoryBackend.mk _ _) with (InMemoryBackend.createJob u t1 t2 i b).1.
      destruct (decide (id = u)) as [->|Hne].
      * rewrite MemoryFacts.read_createJob_eq. intros [= <-].
        split; [|done]. apply elem_of_app. right. unfold uuids. simpl. by left.
      * rewrite MemoryFacts.read_createJob_ne by done. intros Hj.
        destruct (Hreg id j Hj). split; [|done]. apply elem_of_app. by left.
    + cbn [step createJob]. simpl qb_createJob.
      destruct (BullMQBackend.createJob u t1 t2 i b) as [[b' j']|] eqn:Hcr; [|done].
      pose proof (durable_createJob_Ok _ _ _ _ _ _ Hcr) as [Hr Hcn].
      rewrite durable_createJob_eq in Hcr by done. injection Hcr as <- <-.
      simpl. intros id v d.
      destruct (decide (id = u)) as [->|Hne].
      * rewrite lookup_insert_eq. intros [= <- <-].
        split; [|by intros j [= <-]]. apply elem_of_app. right. unfold uuids. simpl. by left.
      * rewrite lookup_insert_ne by (by apply key_ne). apply Hold.
  - simpl. by destruct (getJob now id0 q).
  - destruct q as [b|b].
    + destruct Hold as [Hwf Hold]. split; [by apply MemoryFacts.wf_updateJob|].
      intros id j. simpl.
      destruct (decide (id = id0)) as [->|Hne].
      * rewrite MemoryFacts.read_updateJob_eq.
        destruct (InMemoryBackend.read id0 b) as [j0|] eqn:Hj0; [|done].
        intros [= <-]. destruct (Hold id0 j0 Hj0). simpl. by rewrite Hc.
      * rewrite MemoryFacts.read_updateJob_ne by done. apply Hold.
    + cbn [step updateJob]. simpl qb_updateJob.
      destruct (BullMQBackend.updateJob now id0 patch b) as [b'|] eqn:Hu; [|done].
      pose proof (durable_updateJob_Ok _ _ _ _ _ Hu) as Hh. pose proof Hh as [Hr Hcn].
      rewrite durable_updateJob_eq in Hu by done. injection Hu as <-.
      destruct (BullMQBackend.getJob now id0 b) as [[j0|]|] eqn:Hget; try done.
      destruct (durable_getJob_Some _ _ _ _ Hh Hget) as [d0 Hkv].
      destruct (Hold id0 _ _ Hkv) as [Hin Hid]. specialize (Hid j0 eq_refl).
      simpl. intros id v d. rewrite Hid.
      destruct (decide (id = id0)) as [->|Hne].
      * rewrite lookup_insert_eq. intros [= <- <-]. split; [done|].
        intros j [= <-]. simpl. by rewrite Hc.
      * rewrite lookup_insert_ne by (by apply key_ne). apply Hold.
  - destruct q as [b|b]; [|done].
    destruct Hold as [Hwf Hold]. split; [by apply MemoryFacts.wf_sweep|].
    intros id j. simpl. rewrite MemoryFacts.read_sweep.
    destruct (InMemoryBackend.read id b) as [j0|] eqn:Hj0; [|done].
    destruct (_ <? _)%Z; [done|]. intros [= <-]. by apply Hold.
Qed.

Lemma uuids_cons c cs : uuids (c :: cs) = (uuids [c] ++ uuids cs)%list.
Proof. unfold uuids. simpl. by destruct (uuid_of c). Qed.

Lemma registered_run ids cs q :
  Forall keeps_id cs -> registered ids q -> registered (ids ++ uuids cs) (run cs q).1.
Proof.
  intros Hcs. revert ids q. induction Hcs as [|c cs Hc Hcs IH]; intros ids q Hreg.
  - simpl. unfold uuids. simpl. by rewrite app_nil_r.
  - rewrite run_cons, uuids_cons, app_assoc. cbn [fst]. by apply IH, registered_step.
Qed.

Lemma registered_fresh q : fresh q -> registered [] q.
Proof.
  intros [-> | ->]; simpl.
  - split; [apply MemoryFacts.wf_init|]. intros id j.
    unfold InMemoryBackend.read, InMemoryBackend.getJob. simpl. by rewrite lookup_empty.
  - intros id v d. by rewrite lookup_empty.
Qed.

Lemma registered_peek ids q t id j :
  registered ids q -> peek t id q = Some j -> id ∈ ids /\ job_id j = id.
Proof.
  destruct q as [b|b]; simpl.
  - intros [_ H]. rewrite peek_memory. apply H.
  - intros H Hp. pose proof (peek_Some_healthy _ _ _ _ Hp) as Hh.
    rewrite peek_durable in Hp by done. unfold held in Hp.
    destruct (Redis.kv (BullMQBackend.client b) !! BullMQBackend.key id) as [[v d]|] eqn:Hkv;
      simpl in Hp; [|done].
    unfold Redis.live in Hp. simpl in Hp. destruct (_ <? _)%Z; simpl in Hp; [|done].
    destruct v as [j'|]; [|done]. injection Hp as ->.
    destruct (H id _ _ Hkv) as [Hin Hid]. auto.
Qed.

Lemma registered_tidy ids q : registered ids q -> tidy q.
Proof.
  destruct q as [b|b]; simpl; [by intros [? _]|].
  intros H id j d Hkv. destruct (H id _ _ Hkv) as [_ Hid]. by apply Hid.
Qed.

(** X12.  Only [createJob] brings an id into the queue.  On a queue that
    started empty, after any calls whose patches leave the [id] field
    alone, whatever [getJob] finds under an id was created under that id
    by a [createJob] of the session, and carries that id in its [id]
    field. *)
Theorem getJob_finds_only_created_jobs
    (q0 : Queue) (cs : list call) (t : Z) (id : string) (j : Job) :
  fresh q0 ->
  Forall keeps_id cs ->
  peek t id (run cs q0).1 = Some j ->
  id ∈ uuids cs /\ job_id j = id.
Proof.
  intros Hq0 Hcs Hp.
  apply (registered_peek ([] ++ uuids cs) (run cs q0).1 t); [|done].
  by apply registered_run, registered_fresh.
Qed.

Lemma getJob_finds_only_created_jobs_witness :
  let cs := [Create "a" 0 0 eiffel; Put 5 "a" (status_patch running None None);
             Put 6 "b" (status_patch done (Some "r") None)] in
  exists j,
    peek 7 "a" (run cs durable_init).1 = Some j /\
    "a" ∈ uuids cs /\ job_id j = "a" /\
    peek 7 "b" (run cs durable_init).1 = None.
Proof.
  intros cs. eexists. split; [reflexivity|]. split; [|split].
  - eapply (getJob_finds_only_created_jobs durable_init cs 7 "a");
      [by right|by repeat constructor|reflexivity].
  - eapply (getJob_finds_only_created_jobs durable_init cs 7 "a");
      [by right|by repeat constructor|reflexivity].
  - reflexivity.
Defined.

Lemma elsewhere_step id c q :
  tidy q -> elsewhere id c -> keeps_id c ->
  forall t, peek t id (step c q).1 = peek t id q.
Proof.
  intros Ht He Hk t.
  destruct c as [u t1 t2 i|now id0|now id0 patch|now]; simpl in He, Hk; [| | |done].
  - destruct q as [b|b].
    + simpl. rewrite !peek_memory.
      change (InMemoryBackend.mk _ _) with (InMemoryBackend.createJob u t1 t2 i b).1.
      by rewrite MemoryFacts.read_createJob_ne.
    + cbn [step createJob]. simpl qb_createJob.
      destruct (BullMQBackend.createJob u t1 t2 i b) as [[b' j']|] eqn:Hcr; [|done].
      pose proof (durable_createJob_Ok _ _ _ _ _ _ Hcr) as Hh. pose proof Hh as [Hr Hcn].
      rewrite durable_createJob_eq in Hcr by done. injection Hcr as <- <-.
      simpl. rewrite !peek_durable by done. unfold held. simpl.
      by rewrite lookup_insert_ne by (by apply key_ne).
  - simpl. by destruct (getJob now id0 q).
  - destruct q as [b|b].
    + simpl. rewrite !peek_memory. by rewrite MemoryFacts.read_updateJob_ne.
    + cbn [step updateJob]. simpl qb_updateJob.
      destruct (BullMQBackend.updateJob now id0 patch b) as [b'|] eqn:Hu; [|done].
      pose proof (durable_updateJob_Ok _ _ _ _ _ Hu) as Hh. pose proof Hh as [Hr Hcn].
      rewrite durable_updateJob_eq in Hu by done. injection Hu as <-.
      destruct (BullMQBackend.getJob now id0 b) as [[j0|]|] eqn:Hget; try done.
      destruct (durable_getJob_Some _ _ _ _ Hh Hget) as [d0 Hkv].
      pose proof (Ht id0 j0 d0 Hkv) as Hid.
      simpl. rewrite !peek_durable by done. unfold held. simpl.
      by rewrite Hid, lookup_insert_ne by (by apply key_ne).
Qed.

(** X13.  Jobs do not interfere.  On a queue that started empty and has
    seen only patches that leave the [id] field alone, a [createJob] that
    draws another id, or an [updateJob] for another id with such a patch,
    changes nothing in what [getJob] returns for a given id, on either
    backend. *)
Theorem calls_for_one_job_leave_the_others_alone
    (q0 : Queue) (cs : list call) (c : call) (id : string) (t : Z) :
  fresh q0 ->
  Forall keeps_id cs ->
  elsewhere id c -> keeps_id c ->
  peek t id (step c (run cs q0).1).1 = peek t id (run cs q0).1.
Proof.
  intros Hq0 Hcs He Hk. apply elsewhere_step; [|done..].
  eapply registered_tidy. by apply registered_run, registered_fresh.
Qed.

Lemma calls_for_one_job_leave_the_others_alone_witness :
  let cs := [Create "a" 0 0 eiffel; Create "b" 1 1 eiffel] in
  peek 9 "a" (step (Put 5 "b" (status_patch done (Some "r") None)) (run cs durable_init).1).1
  = Some (new_job "a" 0 0 eiffel) /\
  peek 9 "a" (step (Create "c" 6 6 eiffel) (run cs (Memory InMemoryBackend.init)).1).1
  = Some (new_job "a" 0 0 eiffel).
Proof.
  intros cs. split.
  - rewrite (calls_for_one_job_leave_the_others_alone durable_init cs);
      [reflexivity|by right|by repeat constructor|simpl; done..].
  - rewrite (calls_for_one_job_leave_the_others_alone (Memory InMemoryBackend.init) cs);
      [reflexivity|by left|by repeat constructor|simpl; done..].
Defined.

(** ** The durable backend *)

(** X14.  A record of the durable store lives exactly one day from its
    last write.  After [createJob] the job is found at every instant
    before the second clock reading plus 24 hours and at none from then
    on; after an [updateJob] that found the job (stored under its own id)
    the merged record is found at every instant before the time of the
    update plus 24 hours and at none from then on, whatever the earlier
    expiry was. *)
Theorem durable_record_lives_a_day_after_its_last_write (b : BullMQBackend.t) :
  healthy (Durable b) ->
  (forall uuid t1 t2 i,
     exists q' r,
       createJob uuid t1 t2 i (Durable b) = Ok (q', r) /\
       forall t, peek t uuid q'
                 = if (t <? t2 + DAY_MS)%Z then Some (new_job uuid t1 t2 i) else None) /\
  (forall now id patch j,
     peek now id (Durable b) = Some j -> job_id j = id ->
     exists q',
       updateJob now id patch (Durable b) = Ok q' /\
       forall t, peek t id q'
                 = if (t <? now + DAY_MS)%Z then Some (assign j patch now) else None).
Proof.
  intros Hh. pose proof Hh as [Hr Hc]. split.
  - intros uuid t1 t2 i. simpl. rewrite durable_createJob_eq by done. simpl.
    eexists _, _. split; [done|]. intros t.
    rewrite peek_durable by done. unfold held. simpl.
    rewrite lookup_insert_eq. simpl. unfold Redis.live. simpl.
    unfold DAY_MS, BullMQBackend.TTL_SECONDS. by destruct (_ <? _)%Z.
  - intros now id patch j Hj Hid.
    rewrite peek_durable in Hj by done.
    assert (Hget : BullMQBackend.getJob now id b = Ok (Some j)).
    { rewrite durable_getJob_eq by done. fold (held now id b). by rewrite Hj. }
    simpl. rewrite durable_updateJob_eq, Hget by done. simpl.
    eexists. split; [done|]. intros t.
    rewrite peek_durable by done. unfold held. simpl.
    rewrite Hid, lookup_insert_eq. simpl. unfold Redis.live. simpl.
    unfold DAY_MS, BullMQBackend.TTL_SECONDS. by destruct (_ <? _)%Z.
Qed.

Lemma durable_record_lives_a_day_after_its_last_write_witness :
  let day := (86400 * 1000)%Z in
  let q1 := (run [Create "a" 0 0 eiffel] durable_init).1 in
  let q2 := (run [Create "a" 0 0 eiffel; Put (day - 1) "a" empty_patch] durable_init).1 in
  peek (day - 1) "a" q1 = Some (new_job "a" 0 0 eiffel) /\
  peek day "a" q1 = None /\
  (exists j, peek (2 * day - 2) "a" q2 = Some j) /\
  peek (2 * day - 1) "a" q2 = None.
Proof.
  intros day q1 q2.
  destruct (durable_record_lives_a_day_after_its_last_write
              (BullMQBackend.mk (Redis.mk ∅ true) (Ok tt) [])) as [Hcreate _]; [by split|].
  destruct (Hcreate "a" 0%Z 0%Z eiffel) as (q' & r & Hc & Hp).
  vm_compute in Hc. injection Hc as <- _.
  split; [exact (Hp (day - 1)%Z)|]. split; [exact (Hp day)|].
  split; [eexists; reflexivity|reflexivity].
Defined.

(** X15.  Distinct ids are stored under distinct keys of the durable store,
    and every key starts with the backend's prefix, so jobs share no key
    with one another nor with anything outside the prefix. *)
Theorem durable_keys_are_namespaced_and_distinct (a b : string) :
  (BullMQBackend.key a = BullMQBackend.key b <-> a = b) /\
  String.prefix "pot-api:jobs:" (BullMQBackend.key a) = true.
Proof.
  split.
  - split; [apply key_inj|by intros ->].
  - unfold BullMQBackend.key, BullMQBackend.prefix. simpl.
    repeat (destruct (Ascii.ascii_dec _ _) as [_|Hne]; [|by destruct Hne]).
    by destruct a.
Qed.

(** ** Timestamps *)

Lemma in_order_mono t t' q : (t <= t')%Z -> in_order t q -> in_order t' q.
Proof. intros Ht H j Hj. specialize (H j Hj). lia. Qed.

Lemma in_order_step t c q :
  in_order t q -> chronological t [c] -> keeps_createdAt c ->
  exists t', in_order t' (step c q).1 /\ (t <= t')%Z /\
             forall cs, chronological t (c :: cs) -> chronological t' cs.
Proof.
  intros Hq Hc Hk.
  destruct c as [u t1 t2 i|now id|now id patch|now]; simpl in Hc, Hk; destruct Hc as [Hc _].
  - exists t2. split; [|split; [lia|by intros cs [_ ?]]].
    destruct q as [b|b].
    + simpl. intros j [r Hj]. simpl in Hj.
      apply lookup_app_Some in Hj as [Hj|[_ Hj]].
      * assert (Hh : holds (Memory b) j) by (by exists r). specialize (Hq j Hh). lia.
      * apply list_lookup_singleton_Some in Hj as [_ <-]. simpl. lia.
    + cbn [step createJob]. simpl qb_createJob.
      destruct (BullMQBackend.createJob u t1 t2 i b) as [[b' j']|] eqn:Hcr;
        [|simpl; eapply in_order_mono; [|done]; lia].
      pose proof (durable_createJob_Ok _ _ _ _ _ _ Hcr) as [Hr Hcn].
      rewrite durable_createJob_eq in Hcr by done. injection Hcr as <- <-.
      simpl. intros j (k & d & Hj). simpl in Hj.
      apply lookup_insert_Some in Hj as [[_ [= <- _]]|[_ Hj]]; [simpl; lia|].
      assert (Hh : holds (Durable b) j) by (by exists k, d). specialize (Hq j Hh). lia.
  - exists now. split; [|split; [lia|by intros cs [_ ?]]]. simpl.
    destruct (getJob now id q); simpl; by eapply in_order_mono.
  - exists now. split; [|split; [lia|by intros cs [_ ?]]].
    destruct q as [b|b].
    + simpl. unfold InMemoryBackend.updateJob.
      destruct (InMemoryBackend.store b !! id) as [r|]; [|by eapply in_order_mono].
      destruct (InMemoryBackend.deref b r) as [j0|] eqn:Hj0; [|by eapply in_order_mono].
      assert (Hh0 : holds (Memory b) j0) by (by exists r). specialize (Hq j0 Hh0) as Hj0'.
      intros j [r' Hj]. simpl in Hj.
      apply list_lookup_insert_Some in Hj as [(_ & <- & _)|[_ Hj]].
      * simpl. rewrite Hk. simpl. lia.
      * assert (Hh : holds (Memory b) j) by (by exists r'). specialize (Hq j Hh). lia.
    + cbn [step updateJob]. simpl qb_updateJob.
      destruct (BullMQBackend.updateJob now id patch b) as [b'|] eqn:Hu;
        [|simpl; by eapply in_order_mono].
      pose proof (durable_updateJob_Ok _ _ _ _ _ Hu) as Hh. pose proof Hh as [Hr Hcn].
      rewrite durable_updateJob_eq in Hu by done. injection Hu as <-.
      destruct (BullMQBackend.getJob now id b) as [[j0|]|] eqn:Hget;
        try (simpl; by eapply in_order_mono).
      destruct (durable_getJob_Some _ _ _ _ Hh Hget) as [d0 Hkv].
      assert (Hh0 : holds (Durable b) j0) by (by eexists _, _). specialize (Hq j0 Hh0) as Hj0'.
      simpl. intros j (k & d & Hj). simpl in Hj.
      apply lookup_insert_Some in Hj as [[_ [= <- _]]|[_ Hj]].
      * simpl. rewrite Hk. simpl. lia.
      * assert (Hh' : holds (Durable b) j) by (by exists k, d). specialize (Hq j Hh'). lia.
  - exists now. split; [|split; [lia|by intros cs [_ ?]]].
    destruct q as [b|b]; simpl; [|by eapply in_order_mono].
    intros j [r Hj]. simpl in Hj.
    assert (Hh : holds (Memory b) j) by (by exists r). specialize (Hq j Hh). lia.
Qed.

Lemma chronological_head t c cs : chronological t (c :: cs) -> chronological t [c].
Proof. destruct c; simpl; tauto. Qed.

Lemma in_order_run t cs q :
  in_order t q -> chronological t cs -> Forall keeps_createdAt cs ->
  exists t', in_order t' (run cs q).1.
Proof.
  intros Hq Hc Hk. revert t q Hq Hc.
  induction Hk as [|c cs Hkc Hk IH]; intros t q Hq Hc; [by exists t|].
  destruct (in_order_step t c q Hq (chronological_head _ _ _ Hc) Hkc) as (t' & Hq' & _ & Hc').
  rewrite run_cons. cbn [fst]. by eapply IH, Hc'.
Qed.

(** X16.  As long as the clock does not go back and no patch carries
    [createdAt], no record is ever stamped as updated before it was
    created: on a queue that started empty, every record the queue holds
    after a session has [createdAt] at or before [updatedAt], whatever
    [updatedAt] or [id] the patches carried. *)
Theorem updatedAt_is_never_before_createdAt
    (q0 : Queue) (t0 : Z) (cs : list call) (j : Job) :
  fresh q0 ->
  chronological t0 cs ->
  Forall keeps_createdAt cs ->
  holds (run cs q0).1 j ->
  (job_createdAt j <= job_updatedAt j)%Z.
Proof.
  intros Hq0 Hc Hk Hj.
  assert (H0 : in_order t0 q0).
  { intros j0. destruct Hq0 as [-> | ->]; simpl.
    - by intros [r ?].
    - intros (k & d & Hkv). by rewrite lookup_empty in Hkv. }
  destruct (in_order_run t0 cs q0 H0 Hc Hk) as [t' Ht']. specialize (Ht' j Hj). lia.
Qed.

Lemma updatedAt_is_never_before_createdAt_witness :
  let cs := [Create "a" 10 11 eiffel;
             Put 20 "a" (mkPatch (Some "b") (Some running) None (Some 3%Z) None None None);
             Put 30 "a" empty_patch] in
  exists j,
    peek 40 "b" (run cs durable_init).1 = Some j /\
    (job_createdAt j <= job_updatedAt j)%Z.
Proof.
  intros cs. eexists. split; [reflexivity|].
  apply (updatedAt_is_never_before_createdAt durable_init 0 cs).
  - by right.
  - simpl. lia.
  - by repeat constructor.
  - simpl. eexists (BullMQBackend.key "b"), _. reflexivity.
Defined.

(** ** The durable store out of reach *)

Lemma down_rejects b :
  down b ->
  (forall uuid t1 t2 i, exists msg, createJob uuid t1 t2 i (Durable b) = Threw msg) /\
  (forall now id, exists msg, getJob now id (Durable b) = Threw msg) /\
  (forall now id patch, exists msg, updateJob now id patch (Durable b) = Threw msg).
Proof.
  intros Hd. simpl.
  unfold BullMQBackend.updateJob, BullMQBackend.getJob, BullMQBackend.createJob,
    Redis.get, Redis.set_ex.
  destruct Hd as [[msg ->]| Hc]; simpl.
  - repeat split; intros; by eexists.
  - rewrite Hc. destruct (BullMQBackend.ready b) as [[]|]; simpl;
      repeat split; intros; by eexists.
Qed.

(** X17.  While the durable store is out of reach (the client library did
    not load, or the connection is down) nothing of the asynchronous path
    gets anywhere: the handler of a valid request rejects before a job
    exists or [verify] is called and sends no response, polling rejects
    instead of answering, and a runner started then rejects at its first
    write, without calling [verify] and without a webhook. *)
Theorem nothing_runs_while_the_store_is_down
    (b : BullMQBackend.t) (process_env : ApiKeys) (uuid : string) (t1 t2 : Z) (e : Env)
    (req : AsyncBody) (h : list (effect * Queue)) (now : Z) (id jobId : string)
    (output question : string) (tier : Tier) (keys : list (string * string))
    (cb : option string) :
  down b ->
  valid_request process_env req ->
  let w := {| queue := Durable b; history := h |} in
  (exists msg, verify_async process_env uuid t1 t2 e req w = (Threw msg, w)) /\
  (exists msg, poll now id (Durable b) = Threw msg) /\
  (exists msg,
     runJob e jobId output question tier keys cb w
     = (Threw msg,
        {| queue := Durable b;
           history :=
             h ++ [(Update (now_running e) jobId (status_patch running None None),
                    Durable b)] |})).
Proof.
  intros Hd (Hto & Htq & Hk) w. destruct (down_rejects b Hd) as (Hc & Hg & Hu).
  split; [|split].
  - destruct (truthy_is_Some _ Hto) as [o Ho], (truthy_is_Some _ Htq) as [qn Hq].
    destruct (Hc uuid t1 t2 (mkJobInput o qn (default basic (b_tier req)) (b_callbackUrl req)))
      as [msg Hmsg].
    exists msg. unfold verify_async, validateConfig.
    rewrite Ho, Hq in *. rewrite Hto, Htq, Hk. cbn [negb orb]. subst w. cbn [queue].
    by rewrite Hmsg.
  - destruct (Hg now id) as [msg Hmsg]. exists msg. unfold poll. by rewrite Hmsg.
  - destruct (Hu (now_running e) jobId (status_patch running None None)) as [msg Hmsg].
    exists msg. unfold runJob, bind, await_updateJob, emit. subst w. cbn [queue history].
    by rewrite Hmsg.
Qed.

Lemma nothing_runs_while_the_store_is_down_witness :
  let b := BullMQBackend.mk (Redis.mk ∅ false) (Ok tt) [] in
  threw (verify_async sample_keys "a" 0 0 busy_env sample_request (start (Durable b))).1 = true /\
  threw (poll 5 "a" (Durable b)) = true /\
  effects (runJob busy_env "a" "o" "q" basic [] None (start (Durable b))).2
  = [Update 2000 "a" (status_patch running None None)].
Proof.
  intros b.
  destruct (nothing_runs_while_the_store_is_down b sample_keys "a" 0 0 busy_env
              sample_request [] 5 "a" "a" "o" "q" basic [] None)
    as ([m1 H1] & [m2 H2] & [m3 H3]).
  - by right.
  - by repeat split.
  - split; [|split].
    + unfold start. by rewrite H1.
    + by rewrite H2.
    + unfold start. by rewrite H3.
Defined.

(** ** The choice of the backend *)

Lemma step_keeps_backend c q : is_durable (step c q).1 = is_durable q.
Proof.
  destruct c as [u t1 t2 i|now id|now id patch|now], q as [b|b]; simpl; try done.
  - by destruct (BullMQBackend.createJob u t1 t2 i b) as [[? ?]|].
  - by destruct (BullMQBackend.getJob now id b).
  - by destruct (BullMQBackend.updateJob now id patch b).
Qed.

Lemma facade_call_keeps_backend s c q :
  exists q', (facade_call s c (Some q)).1 = Some q' /\ is_durable q' = is_durable q.
Proof.
  destruct c as [u t1 t2 i|now id|now id patch|now].
  - unfold facade_call, getQueue.
    destruct (step (Create u t1 t2 i) q) as [q' a] eqn:Hs. exists q'. split; [done|].
    by rewrite <- (step_keeps_backend (Create u t1 t2 i) q), Hs.
  - unfold facade_call, getQueue.
    destruct (step (Get now id) q) as [q' a] eqn:Hs. exists q'. split; [done|].
    by rewrite <- (step_keeps_backend (Get now id) q), Hs.
  - unfold facade_call, getQueue.
    destruct (step (Put now id patch) q) as [q' a] eqn:Hs. exists q'. split; [done|].
    by rewrite <- (step_keeps_backend (Put now id patch) q), Hs.
  - exists (timer now q). split; [done|]. by destruct q.
Qed.

Lemma serve_keeps_backend cs q :
  exists q', serve cs (Some q) = Some q' /\ is_durable q' = is_durable q.
Proof.
  revert q. induction cs as [|[s c] cs IH]; intros q; [by exists q|].
  destruct (facade_call_keeps_backend s c q) as (q1 & Hq1 & Hk1).
  destruct (IH q1) as (q2 & Hq2 & Hk2).
  exists q2. simpl. rewrite Hq1. split; [done|congruence].
Qed.

(** X18.  The backend is chosen once, by the first call of a facade
    function: it is the durable one exactly when [REDIS_URL] is set and
    non-empty at that moment.  Timer firings before that find no backend
    and do nothing, and whatever the environment says at later calls the
    backend stays of the kind first chosen. *)
Theorem backend_is_chosen_once
    (ticks rest : list (Settings * call)) (s : Settings) (c : call) :
  Forall (fun sc => is_tick sc.2 = true) ticks ->
  is_tick c = false ->
  serve ticks None = None /\
  exists q,
    serve (ticks ++ (s, c) :: rest) None = Some q /\
    is_durable q = truthy (REDIS_URL s).
Proof.
  intros Hticks Hc.
  assert (Hnone : forall l, serve (ticks ++ l) None = serve l None).
  { intros l. induction Hticks as [|[s0 c0] ticks Hc0 Hticks IH]; [done|].
    simpl in *. by destruct c0. }
  split; [by rewrite <- (app_nil_r ticks), Hnone|].
  rewrite Hnone. simpl.
  assert (Hfirst : exists q1, (facade_call s c None).1 = Some q1 /\
                              is_durable q1 = truthy (REDIS_URL s)).
  { exists (step c (getQueue None (REDIS_URL s) (connection s) (library s))).1. split.
    - unfold facade_call. destruct c; try done; by destruct (step _ _).
    - rewrite step_keeps_backend. unfold getQueue. by destruct (truthy (REDIS_URL s)). }
  destruct Hfirst as (q1 & Hq1 & Hk1). rewrite Hq1.
  destruct (serve_keeps_backend rest q1) as (q2 & Hq2 & Hk2).
  exists q2. split; [done|congruence].
Qed.

Lemma backend_is_chosen_once_witness :
  let unset := mkSettings None (Redis.mk ∅ true) (Ok tt) in
  let empty := mkSettings (Some "") (Redis.mk ∅ true) (Ok tt) in
  let set := mkSettings (Some "redis://localhost:6379") (Redis.mk ∅ true) (Ok tt) in
  exists q,
    serve ([(set, Tick 5)] ++ (empty, Get 6 "a") :: [(set, Create "a" 7 7 eiffel)]) None
    = Some q /\
    is_durable q = false.
Proof.
  intros unset empty set.
  destruct (backend_is_chosen_once [(set, Tick 5)] [(set, Create "a" 7 7 eiffel)]
              empty (Get 6 "a")) as (_ & q & Hq & Hk).
  - by repeat constructor.
  - reflexivity.
  - by exists q.
Defined.

(** ** Updates one after the other *)

Lemma assign_assign j p1 t1 p2 t2 :
  assign (assign j p1 t1) p2 t2 = assign j (lay p2 p1) t2.
Proof.
  destruct p2 as [a b c d e f g]. unfold assign, lay. simpl.
  f_equal;
    first [by destruct a|by destruct b|by destruct c|by destruct e|by destruct f|by destruct g].
Qed.

(** X19.  Two updates of a job, the first of which leaves the [id] field
    alone, leave the record that a single update would leave at the time
    of the second, with the second patch laid over the first: the later
    patch wins key by key, and nothing remains of the first update's
    [updatedAt].  (On the durable backend the job must be stored under its
    own id and still be alive at the second update.) *)
Theorem two_updates_amount_to_one
    (q : Queue) (id : string) (j : Job) (p1 p2 : JobPatch) (t1 t2 t : Z) :
  peek t1 id q = Some j ->
  peek t2 id q = Some j ->
  job_id j = id ->
  p_id p1 = None ->
  (t2 < t1 + DAY_MS)%Z -> (t < t2 + DAY_MS)%Z ->
  exists q1 q2 q',
    updateJob t1 id p1 q = Ok q1 /\
    updateJob t2 id p2 q1 = Ok q2 /\
    updateJob t2 id (lay p2 p1) q = Ok q' /\
    peek t id q2 = Some (assign j (lay p2 p1) t2) /\
    peek t id q' = Some (assign j (lay p2 p1) t2).
Proof.
  intros H1 H2 Hid Hp1 Ht2 Ht.
  assert (Hw : written_back q id j = true) by (rewrite <- Hid; apply written_back_own_id).
  destruct (updateJob_peek_at q t1 id p1 j t2 H1 Hw Ht2) as (q1 & Hu1 & _ & Hq1).
  assert (Hw1 : written_back q1 id (assign j p1 t1) = true).
  { assert (Hid1 : job_id (assign j p1 t1) = id) by (simpl; by rewrite Hp1).
    rewrite <- Hid1 at 1. apply written_back_own_id. }
  destruct (updateJob_peek_at q1 t2 id p2 _ t Hq1 Hw1 Ht) as (q2 & Hu2 & _ & Hq2).
  destruct (updateJob_peek_at q t2 id (lay p2 p1) j t H2 Hw Ht) as (q' & Hu' & _ & Hq').
  exists q1, q2, q'. rewrite assign_assign in Hq2. done.
Qed.

Lemma two_updates_amount_to_one_witness :
  let q := (run [Create "a" 0 0 eiffel] durable_init).1 in
  exists q1 q2,
    updateJob 10 "a" (status_patch running None None) q = Ok q1 /\
    updateJob 20 "a" (status_patch done (Some "r") None) q1 = Ok q2 /\
    peek 30 "a" q2
    = Some (assign (new_job "a" 0 0 eiffel)
              (lay (status_patch done (Some "r") None) (status_patch running None None)) 20).
Proof.
  intros q.
  destruct (two_updates_amount_to_one q "a" (new_job "a" 0 0 eiffel)
              (status_patch running None None) (status_patch done (Some "r") None) 10 20 30)
    as (q1 & q2 & _ & H1 & H2 & _ & Hp & _);
    [reflexivity..|unfold DAY_MS; lia|unfold DAY_MS; lia|].
  by exists q1, q2.
Defined.
